(** * Data normalization and scaling notebooks: a shallow embedding

    The two notebooks of the repository are sequences of cells; each cell
    builds a small array and runs a few lines of numpy/scipy on it.  This
    file embeds the three cells that contain logic of their own:

    - the quantile-normalization cell  (normalization notebook, "Quantile"),
    - the mean-subtraction cell        (normalization notebook,
                                        "Mean subtraction"),
    - the decimal-scaling cell         (Data_Scaling.ipynb, "Decimal"),

    and the two scaler cells of Data_Scaling.ipynb whose arithmetic is
    rational ("Robust" and "Mean absolute deviation").  The cells that take
    logarithms or square roots (logarithmic scaling, z-score, unit vector)
    are not embedded.

    Conventions of the embedding.

    - A Python number is [PyInt z] or [PyFloat q]; a nested list literal is a
      [list (list pynum)].
    - An [ndarray] carries its element type ([int64] or [float64]), its
      number of dimensions and its shape.  Entries are canonical rationals
      [Qc]: the integers of an [int64] table are the integral rationals, and
      a finite [float64] is idealised as the rational it denotes, so that the
      arithmetic of ranks and means is exact.  The one place where rounding
      decides a property, the true division of the decimal-scaling cell, is
      modelled with IEEE-754 binary64 rounding.
    - [nan] is [None] in an [option Qc]; it only ever arises as the mean of
      an empty slice.
    - Python exceptions are the constructors of [error]; a cell is a
      function into [result]. *)

From Stdlib Require Import ZArith QArith Qcanon Qround Lia.
From Stdlib Require Qcabs.
From stdpp Require Import base option numbers list sorting.

Local Open Scope Qc_scope.

(** ** Errors *)

Inductive error :=
  | ValueError          (* inhomogeneous shape; max() of an empty sequence;
                           integer string conversion beyond 4300 digits;
                           cannot convert float NaN to integer *)
  | AxisError           (* axis 1 is out of bounds for array of dimension 1 *)
  | IndexError          (* index i is out of bounds for axis 0 with size r *)
  | OverflowError       (* integer division result too large for a float *)
  | ZeroDivisionError.  (* division by zero *)

Inductive result (A : Type) :=
  | Ok (a : A)
  | Raise (e : error).
Arguments Ok {A} a.
Arguments Raise {A} e.

Definition bind {A B} (m : result A) (k : A → result B) : result B :=
  match m with
  | Ok a => k a
  | Raise e => Raise e
  end.

Notation "x ←! m ; k" := (bind m (λ x, k))
  (at level 20, m at level 100, k at level 200, right associativity,
   format "x  ←!  m ;  '/' k").

(** ** Arrays *)

Inductive pynum :=
  | PyInt (z : Z)
  | PyFloat (q : Qc).

Inductive dtype := int64 | float64.

(** [Vec d xs] has shape [(length xs,)]; [Mat d c rows] has shape
    [(length rows, c)]. *)
Inductive ndarray :=
  | Vec (d : dtype) (xs : list Qc)
  | Mat (d : dtype) (c : nat) (rows : list (list Qc)).

Global Instance error_eq_dec : EqDecision error.
Proof. solve_decision. Defined.
Global Instance result_eq_dec `{EqDecision A} : EqDecision (result A).
Proof. solve_decision. Defined.
Global Instance dtype_eq_dec : EqDecision dtype.
Proof. solve_decision. Defined.
Global Instance ndarray_eq_dec : EqDecision ndarray.
Proof. solve_decision. Defined.

Definition is_int (x : pynum) : bool :=
  match x with PyInt _ => true | PyFloat _ => false end.

Definition to_Qc (x : pynum) : Qc :=
  match x with PyInt z => Qc_of_Z z | PyFloat q => q end.

(** A number of a literal that numpy stores as [int64] or [float64]: a float,
    or an integer in the range of a signed 64-bit integer.  (Larger integers
    make [np.array] choose [uint64], [float64] or [object].) *)
Definition fits_int64 (x : pynum) : Prop :=
  match x with
  | PyInt z => (- 2 ^ 63 ≤ z < 2 ^ 63)%Z
  | PyFloat _ => True
  end.

(** Element type numpy infers for a literal: integers give [int64], a float
    anywhere (or no element at all) gives [float64].  Integers are taken to
    fit in 64 bits ([fits_int64]). *)
Definition infer_dtype (xs : list pynum) : dtype :=
  match xs with
  | [] => float64
  | _ => if forallb is_int xs then int64 else float64
  end.

(** [np.array(literal)] for a list of rows.  The empty list is the
    one-dimensional array of shape [(0,)]; rows of unequal length are
    rejected ("inhomogeneous shape"). *)
Definition np_array (py : list (list pynum)) : result ndarray :=
  match py with
  | [] => Ok (Vec float64 [])
  | row0 :: _ =>
      let c := length row0 in
      if forallb (λ row, Nat.eqb (length row) c) py
      then Ok (Mat (infer_dtype (concat py)) c (map (map to_Qc) py))
      else Raise ValueError
  end.

(** ** Axis plumbing *)

(** Entry in row [p] and column [j]. *)
Definition entry {A} (rows : list (list A)) (p j : nat) : option A :=
  rows !! p ≫= (.!! j).

(** Column [j], read from top to bottom. *)
Definition column {A} (j : nat) (rows : list (list A)) : list A :=
  omap (.!! j) rows.

(** A table is rectangular of width [c] when every row has [c] entries. *)
Definition rect {A} (c : nat) (rows : list (list A)) : Prop :=
  Forall (λ row, length row = c) rows.

(** Columns of a table with [c] columns; with no row there are [c] empty
    columns. *)
Fixpoint transpose {A} (c : nat) (rows : list (list A)) : list (list A) :=
  match rows with
  | [] => replicate c []
  | row :: rest => zip_with cons row (transpose c rest)
  end.

(** Apply [f] to every column of a [c]-column table whose columns have
    length [r] ([np.apply_along_axis(f, 0, a)]). *)
Definition along_axis0 {A B} (f : list A → list B) (c : nat)
    (rows : list (list A)) : list (list B) :=
  transpose (length rows) (map f (transpose c rows)).

(** ** Library primitives *)

Definition Qc_of_nat (n : nat) : Qc := Qc_of_Z (Z.of_nat n).

Definition Qcsum (l : list Qc) : Qc := foldr Qcplus 0 l.

(** [np.mean] of a slice; the mean of an empty slice is [nan]. *)
Definition np_mean (l : list Qc) : option Qc :=
  match l with
  | [] => None
  | _ => Some (Qcsum l / Qc_of_nat (length l))
  end.

(** [np.sort] of a one-dimensional slice: the ascending arrangement of its
    values (which does not depend on the sorting algorithm). *)
Definition sort1 (l : list Qc) : list Qc := merge_sort Qcle l.

(** Length of the longest prefix whose elements satisfy [p]. *)
Fixpoint prefix_len (p : Qc → bool) (l : list Qc) : nat :=
  match l with
  | [] => 0
  | y :: l' => if p y then S (prefix_len p l') else 0
  end.

(** [scipy.stats.rankdata(col)] with the default method ["average"]: the
    column is sorted, [lo] is the index at which the block of values equal to
    [x] starts, [hi] the index at which it ends, and the rank of [x] is
    [0.5 * (lo + hi + 1)]. *)
Definition rank_in (sorted : list Qc) (x : Qc) : Qc :=
  let lo := prefix_len (λ y, bool_decide (y < x)) sorted in
  let hi := prefix_len (λ y, bool_decide (y ≤ x)) sorted in
  (Qc_of_nat lo + Qc_of_nat hi + 1) / 2.

Definition rankdata1 (col : list Qc) : list Qc :=
  map (rank_in (sort1 col)) col.

(** [rankdata(a, axis=0)]: a [float64] array of the shape of [a]. *)
Definition rankdata (a : ndarray) : ndarray :=
  match a with
  | Vec _ xs => Vec float64 (rankdata1 xs)
  | Mat _ c rows => Mat float64 c (along_axis0 rankdata1 c rows)
  end.

(** [np.mean(a, axis=1)]: one value per row; a one-dimensional array has no
    axis 1. *)
Definition np_mean_axis1 (a : ndarray) : result (list (option Qc)) :=
  match a with
  | Vec _ _ => Raise AxisError
  | Mat _ _ rows => Ok (map np_mean rows)
  end.

(** [np.sort(a, axis=0)]. *)
Definition np_sort (a : ndarray) : ndarray :=
  match a with
  | Vec d xs => Vec d (sort1 xs)
  | Mat d c rows => Mat d c (along_axis0 sort1 c rows)
  end.

(** [np.flip(a, axis=0)]. *)
Definition np_flip (a : ndarray) : ndarray :=
  match a with
  | Vec d xs => Vec d (reverse xs)
  | Mat d c rows => Mat d c (reverse rows)
  end.

(** [np.zeros_like(a)]: same shape, same element type. *)
Definition np_zeros_like (a : ndarray) : ndarray :=
  match a with
  | Vec d xs => Vec d (replicate (length xs) 0)
  | Mat d c rows => Mat d c (replicate (length rows) (replicate c 0))
  end.

(** [a.shape[1]]. *)
Definition shape1 (a : ndarray) : result nat :=
  match a with
  | Vec _ _ => Raise IndexError
  | Mat _ c _ => Ok c
  end.

(** Conversion of a float to a 64-bit integer truncates toward zero. *)
Definition Qctrunc (q : Qc) : Z := Z.quot (Qnum q) (Zpos (Qden q)).

(** Conversion of a float to the element type of the target array. *)
Definition astype (d : dtype) (q : Qc) : Qc :=
  match d with
  | int64 => Qc_of_Z (Qctrunc q)
  | float64 => q
  end.

(** Storing the float [v] into an array of element type [d].  A table of
    rationals cannot hold [nan] (and an integer array has no [nan] at all):
    the model reports an attempt to store it as an error.
    [reference_no_nan] below shows that the loop of the cell never reads a
    [nan], so that this case is reached by no run. *)
Definition store (d : dtype) (v : option Qc) : result Qc :=
  match v with
  | Some q => Ok (astype d q)
  | None => Raise ValueError
  end.

(** [a[:, i] = v] for an [i] below the number of columns. *)
Definition set_column (i : nat) (v : option Qc) (a : ndarray) : result ndarray :=
  match a with
  | Vec _ _ => Raise IndexError
  | Mat d c rows => x ←! store d v; Ok (Mat d c (map (λ row, <[i := x]> row) rows))
  end.

(** ** The quantile-normalization cell *)

Definition reference_distribution (data : ndarray) : result (list (option Qc)) :=
  np_mean_axis1 (rankdata data).

Definition sorted_data (data : ndarray) : ndarray := np_sort data.

(** The [for i in range(sorted_data.shape[1])] loop. *)
Fixpoint remap_loop (ref : list (option Qc)) (idx : list nat) (q : ndarray)
    : result ndarray :=
  match idx with
  | [] => Ok q
  | i :: idx' =>
      match ref !! i with
      | None => Raise IndexError
      | Some v => q' ←! set_column i v q; remap_loop ref idx' q'
      end
  end.

Definition quantile_pipeline (data : ndarray) : result ndarray :=
  ref ←! reference_distribution data;
  let sd := sorted_data data in
  let q0 := np_zeros_like sd in
  c ←! shape1 sd;
  q ←! remap_loop ref (seq 0 c) q0;
  Ok (np_flip (np_sort q)).

Definition quantile_normalized_data (py : list (list pynum)) : result ndarray :=
  data ←! np_array py; quantile_pipeline data.

Definition ints (l : list Z) : list pynum := map PyInt l.
Definition int_rows (rows : list (list Z)) : list (list Qc) :=
  map (map Qc_of_Z) rows.

Definition sample : list (list pynum) :=
  [ints [10; 20; 30]; ints [40; 50; 60]; ints [70; 80; 90]]%Z.

(** ** Auxiliary definitions used in the statements and proofs *)

(** What the loop does to each row of a table whose rows are all equal. *)
Fixpoint row_loop (d : dtype) (ref : list (option Qc)) (idx : list nat)
    (row : list Qc) : result (list Qc) :=
  match idx with
  | [] => Ok row
  | i :: idx' =>
      match ref !! i with
      | None => Raise IndexError
      | Some v => x ←! store d v; row_loop d ref idx' (<[i := x]> row)
      end
  end.

(** Ordinal positions (counted from [k]) at which [x] occurs in [l]. *)
Fixpoint positions_from (k : nat) (x : Qc) (l : list Qc) : list nat :=
  match l with
  | [] => []
  | y :: l' =>
      if decide (y = x) then k :: positions_from (S k) x l'
      else positions_from (S k) x l'
  end.

(** Rank of [x] in a column as the glossary defines it: the ordinal
    positions [1, 2, ...] that the occurrences of [x] take in the sorted
    column, averaged. *)
Definition average_rank (col : list Qc) (x : Qc) : Qc :=
  let pos := positions_from 1 x (sort1 col) in
  Qcsum (Qc_of_nat <$> pos) / Qc_of_nat (length pos).

(** The rows of a two-dimensional array. *)
Definition rows_of (a : ndarray) : list (list Qc) :=
  match a with
  | Vec _ _ => []
  | Mat _ _ rows => rows
  end.

(** A nested list is ragged when two of its rows differ in length. *)
Definition ragged {A} (py : list (list A)) : Prop :=
  ∃ row1 row2, row1 ∈ py ∧ row2 ∈ py ∧ length row1 ≠ length row2.

(** A table is empty when it holds no entry at all. *)
Definition empty_table {A} (py : list (list A)) : Prop := concat py = [].

(** The ColumnRemapper as the specification words it: in every column, the
    row that holds the [k]-th smallest value receives the [k]-th value of the
    reference distribution.  [k] is counted from 0, and is the number of
    strictly smaller values of the column. *)
Definition spec_remap_column (ref : list Qc) (col : list Qc) : list Qc :=
  omap (λ x, ref !! prefix_len (λ y, bool_decide (y < x)) (sort1 col)) col.

Definition spec_column_remapper (ref : list Qc) (c : nat)
    (rows : list (list Qc)) : list (list Qc) :=
  along_axis0 (spec_remap_column ref) c rows.

(** Tables used in the examples. *)
Definition sample_rows : list (list Qc) :=
  int_rows [[10; 20; 30]; [40; 50; 60]; [70; 80; 90]]%Z.

Definition crossed : list (list pynum) := [ints [1; 2]; ints [2; 1]]%Z.
Definition crossed_rows : list (list Qc) := int_rows [[1; 2]; [2; 1]]%Z.

Definition half (n : Z) : Qc := Qc_of_Z n / 2.

(** ** The mean-subtraction cell *)

(** [x - mean] on floats; anything minus [nan] is [nan]. *)
Definition float_sub (x : Qc) (m : option Qc) : option Qc :=
  (λ m', x - m') <$> m.

(** [normalized_data = data - mean], with [mean = np.mean(data)]. *)
Definition normalized_data (data : list Qc) : list (option Qc) :=
  let mean := np_mean data in
  map (λ x, float_sub x mean) data.

(** [np.mean] of an array of floats; one [nan] makes the mean [nan]. *)
Definition np_mean_floats (l : list (option Qc)) : option Qc :=
  mapM id l ≫= np_mean.


(** ** The decimal-scaling cell *)

(** [max(data)]; the maximum of an empty list is an error. *)
Definition py_max (data : list Z) : result Z :=
  match data with
  | [] => Raise ValueError
  | x :: rest => Ok (foldl Z.max x rest)
  end.

(** Number of decimal digits of a non-negative integer; [fuel] bounds the
    number of divisions by ten. *)
Fixpoint digits_fuel (fuel : nat) (n : Z) : nat :=
  match fuel with
  | O => 1
  | S fuel' => if (n <? 10)%Z then 1 else S (digits_fuel fuel' (n / 10))
  end.

Definition decimal_len (n : Z) : nat := digits_fuel (Z.to_nat (Z.log2 n)) n.

(** [len(str(n))]: the digits, and one more character for the sign of a
    negative number.  Python 3.11 refuses to convert an integer of more than
    4300 digits to a string. *)
Definition py_str_len (n : Z) : result nat :=
  let len_digits := decimal_len (Z.abs n) in
  if (4300 <? len_digits)%nat then Raise ValueError
  else Ok (if (n <? 0)%Z then S len_digits else len_digits).

(** Nearest integer to [n / d], ties to the even one ([0 <= n], [0 < d]). *)
Definition round_half_even (n d : Z) : Z :=
  let q := (n / d)%Z in
  let r := (n mod d)%Z in
  if (2 * r <? d)%Z then q
  else if (d <? 2 * r)%Z then (q + 1)%Z
  else if Z.even q then q else (q + 1)%Z.

(** [b * 2^k <= a], for an exponent [k] of either sign. *)
Definition scaled_le (b k a : Z) : bool :=
  if (0 <=? k)%Z then (b * 2 ^ k <=? a)%Z else (b <=? a * 2 ^ (- k))%Z.

(** The integer [e] with [2^e <= a / b < 2^(e+1)], for positive [a], [b]. *)
Definition floor_log2_ratio (a b : Z) : Z :=
  let k := (Z.log2 a - Z.log2 b)%Z in
  if scaled_le b k a then k else (k - 1)%Z.

(** The binary64 number nearest to [a / b] (ties to even), for positive [a]
    and [b]: the quotient is rounded to a multiple of [2^(e - 52)], where [e]
    is its exponent, or to a multiple of [2^(-1074)] in the subnormal range
    (so that a small enough quotient rounds to zero).  The value is returned
    as a rational, without regard to the largest finite float. *)
Definition binary64_round (a b : Z) : Qc :=
  let e := Z.max (floor_log2_ratio a b) (-1022) in
  let s := (52 - e)%Z in
  if (0 <=? s)%Z
  then Qc_of_Z (round_half_even (a * 2 ^ s) b) / Qc_of_Z (2 ^ s)
  else Qc_of_Z (round_half_even a (b * 2 ^ (- s)) * 2 ^ (- s)).

(** [a / b] on Python integers: the correctly rounded quotient as a float. *)
Definition py_truediv (a b : Z) : result Qc :=
  if (b =? 0)%Z then Raise ZeroDivisionError
  else if (a =? 0)%Z then Ok 0
  else
    let v := binary64_round (Z.abs a) (Z.abs b) in
    if bool_decide (Qc_of_Z (2 ^ 1024) ≤ v) then Raise OverflowError
    else Ok (if (Z.sgn a * Z.sgn b <? 0)%Z then - v else v).

(** A list comprehension whose body may raise. *)
Fixpoint comprehension {A B} (f : A → result B) (l : list A) : result (list B) :=
  match l with
  | [] => Ok []
  | x :: l' => y ←! f x; ys ←! comprehension f l'; Ok (y :: ys)
  end.

Definition scaled_data (data : list Z) : result (list Qc) :=
  mx ←! py_max data;
  max_digits ←! py_str_len mx;
  let scale_factor := (10 ^ Z.of_nat max_digits)%Z in
  comprehension (λ x, py_truediv x scale_factor) data.


(** ** Auxiliary definitions for the further properties *)

(** The number of values of a column that are smaller than [x], and the
    number of those that are not larger. *)
Definition count_lt (col : list Qc) (x : Qc) : nat :=
  length (filter (λ y, y < x) col).
Definition count_le (col : list Qc) (x : Qc) : nat :=
  length (filter (λ y, y ≤ x) col).



(** ** The scaler cells of the scaling notebook *)

(** [a.reshape(-1, 1)]: the entries of the array, in row-major order, as a
    single column. *)
Definition reshape_column (a : ndarray) : ndarray :=
  match a with
  | Vec d xs => Mat d 1 (map (λ x, [x]) xs)
  | Mat d _ rows => Mat d 1 (map (λ x, [x]) (concat rows))
  end.

(** Input validation of the scikit-learn scalers: a two-dimensional array
    with at least one row (sample) and one column (feature) is required. *)
Definition check_array (a : ndarray) : result (nat * list (list Qc)) :=
  match a with
  | Vec _ _ => Raise ValueError
  | Mat _ c rows =>
      if Nat.eqb (length rows) 0 || Nat.eqb c 0 then Raise ValueError
      else Ok (c, rows)
  end.

(** The machine epsilon of binary64. *)
Definition float_eps : Qc := 1 / Qc_of_Z (2 ^ 52).

(** A scale below ten machine epsilons counts as zero and is replaced by
    one. *)
Definition handle_zeros_in_scale (scale : Qc) : Qc :=
  if bool_decide (scale < Qc_of_Z 10 * float_eps) then 1 else scale.

Definition Qcmax (x y : Qc) : Qc := if bool_decide (x ≤ y) then y else x.

(** [np.max(np.abs(col))] of a non-empty column. *)
Definition max_abs (col : list Qc) : Qc :=
  foldr (λ x acc, Qcmax (Qcabs.Qcabs x) acc) 0 col.

(** [MaxAbsScaler] on one column: division by the largest magnitude. *)
Definition max_abs_scale_column (col : list Qc) : list Qc :=
  let scale := handle_zeros_in_scale (max_abs col) in
  map (λ x, x / scale) col.

Definition MaxAbsScaler_fit_transform (a : ndarray) : result ndarray :=
  cr ←! check_array a;
  Ok (Mat float64 cr.1 (along_axis0 max_abs_scale_column cr.1 cr.2)).

(** The cell: [MaxAbsScaler().fit_transform(data.reshape(-1, 1))]. *)
Definition max_abs_scaled_data (data : ndarray) : result ndarray :=
  MaxAbsScaler_fit_transform (reshape_column data).

(** [np.median] of a sorted column: the middle value, or the mean of the
    two middle values. *)
Definition median_sorted (s : list Qc) : option Qc :=
  let n := length s in
  if Nat.even n
  then a ← s !! (n / 2 - 1)%nat; b ← s !! (n / 2)%nat; Some ((a + b) / 2)
  else s !! (n / 2)%nat.

(** [np.percentile(col, 100 * p)] of a sorted column with linear
    interpolation: the virtual index is [p * (n - 1)]; the result lies
    between the two values around it. *)
Definition percentile_sorted (p : Qc) (s : list Qc) : option Qc :=
  let n := length s in
  let pos := p * Qc_of_nat (n - 1) in
  let lo := Z.to_nat (Qfloor pos) in
  let t := pos - Qc_of_Z (Qfloor pos) in
  a ← s !! lo; b ← s !! Nat.min (S lo) (n - 1); Some (a + t * (b - a)).

Definition quarter : Qc := 1 / Qc_of_Z 4.
Definition three_quarters : Qc := Qc_of_Z 3 / Qc_of_Z 4.

(** Inter-quartile range of a column. *)
Definition iqr (col : list Qc) : option Qc :=
  q1 ← percentile_sorted quarter (sort1 col);
  q3 ← percentile_sorted three_quarters (sort1 col);
  Some (q3 - q1).

(** [RobustScaler] on one column: the median is subtracted and the result
    divided by the inter-quartile range.  On an empty column the statistics
    are [nan]; [check_array] lets no empty column through. *)
Definition robust_scale_column (col : list Qc) : list Qc :=
  match median_sorted (sort1 col), iqr col with
  | Some center, Some range =>
      let scale := handle_zeros_in_scale range in
      map (λ x, (x - center) / scale) col
  | _, _ => col
  end.

Definition RobustScaler_fit_transform (a : ndarray) : result ndarray :=
  cr ←! check_array a;
  Ok (Mat float64 cr.1 (along_axis0 robust_scale_column cr.1 cr.2)).

(** The cell: [RobustScaler().fit_transform(data.reshape(-1, 1))]. *)
Definition robust_scaled_data (data : ndarray) : result ndarray :=
  RobustScaler_fit_transform (reshape_column data).

Definition outliers : ndarray :=
  Vec int64 (map Qc_of_Z [1; 2; 3; 4; 5; 100; 200; 300]%Z).

Definition column_of (l : list Qc) : list (list Qc) := map (λ x, [x]) l.

(** The map that centres at [c] and scales by [k]. *)
Definition affine (c k x : Qc) : Qc := (x - c) / k.

(** The row [1, 2, ..., n]. *)
Definition one_to (n : nat) : list Qc := map (λ i, Qc_of_nat (S i)) (seq 0 n).

(** * Properties *)

(** Equality of results is decided by computation. *)
Lemma by_compute {A} `{EqDecision A} (x y : A) : bool_decide (x = y) = true → x = y.
Proof. apply bool_decide_eq_true_1. Qed.

Ltac compute_eq := apply by_compute; vm_compute; reflexivity.

(** ** Tables and their transposition *)

Section tables.
Context {A : Type}.
Local Open Scope nat_scope.
Implicit Types (rows : list (list A)) (row col : list A).

Lemma rect_lookup c rows p row :
  rect c rows → rows !! p = Some row → length row = c.
Proof. intros Hr Hp. exact (Forall_lookup_1 _ _ _ _ Hr Hp). Qed.

Lemma rect_replicate c r row : length row = c → rect c (replicate r row).
Proof. intros <-. apply Forall_replicate. reflexivity. Qed.

Lemma transpose_length c rows : rect c rows → length (transpose c rows) = c.
Proof.
  induction 1 as [|row rest Hrow _ IH]; simpl.
  - apply length_replicate.
  - rewrite length_zip_with, IH, Hrow. lia.
Qed.

Lemma transpose_rect c rows :
  rect c rows → rect (length rows) (transpose c rows).
Proof.
  unfold rect. induction 1 as [|row rest Hrow Hrest IH]; simpl.
  - apply Forall_replicate. reflexivity.
  - apply Forall_lookup_2. intros j col.
    rewrite lookup_zip_with. intros Hj.
    destruct (row !! j) as [x|]; [|discriminate].
    destruct (transpose c rest !! j) as [col'|] eqn:Hc; [|discriminate].
    simpl in Hj. injection Hj as <-. simpl. f_equal.
    exact (Forall_lookup_1 _ _ _ _ IH Hc).
Qed.

(** Entry [(j, p)] of the transpose is entry [(p, j)] of the table. *)
Lemma entry_transpose c rows j p :
  rect c rows → entry (transpose c rows) j p = entry rows p j.
Proof.
  unfold entry. intros Hr. revert p.
  induction Hr as [|row rest Hrow Hrest IH]; intros p; simpl.
  - destruct (replicate c [] !! j) as [l|] eqn:Hl; [|done].
    apply lookup_replicate in Hl as [-> _]. done.
  - rewrite lookup_zip_with.
    assert (length (transpose c rest) = c) as Hlen
      by (apply transpose_length; exact Hrest).
    destruct (decide (j < c)) as [Hj|Hj].
    + destruct (lookup_lt_is_Some_2 row j) as [x Hx]; [lia|].
      destruct (lookup_lt_is_Some_2 (transpose c rest) j) as [col Hc]; [lia|].
      rewrite Hx, Hc. simpl. destruct p as [|p]; simpl.
      * symmetry. exact Hx.
      * specialize (IH p). rewrite Hc in IH. exact IH.
    + rewrite (lookup_ge_None_2 row j) by lia. simpl.
      destruct p as [|p]; simpl.
      * symmetry. apply lookup_ge_None_2. lia.
      * specialize (IH p).
        rewrite (lookup_ge_None_2 (transpose c rest) j) in IH by lia.
        exact IH.
Qed.

(** Two tables of the same shape with the same entries are equal. *)
Lemma table_ext c rows1 rows2 :
  rect c rows1 → rect c rows2 → length rows1 = length rows2 →
  (∀ p j, entry rows1 p j = entry rows2 p j) → rows1 = rows2.
Proof.
  intros H1 H2 Hlen Hent. apply list_eq. intros p.
  destruct (rows1 !! p) as [r1|] eqn:E1.
  - destruct (lookup_lt_is_Some_2 rows2 p) as [r2 E2].
    { rewrite <- Hlen. eapply lookup_lt_Some, E1. }
    rewrite E2. f_equal. apply list_eq. intros j.
    specialize (Hent p j). unfold entry in Hent.
    rewrite E1, E2 in Hent. exact Hent.
  - symmetry. apply lookup_ge_None_2. rewrite <- Hlen.
    apply lookup_ge_None_1, E1.
Qed.

Lemma transpose_involutive c rows :
  rect c rows → transpose (length rows) (transpose c rows) = rows.
Proof.
  intros Hr.
  pose proof (transpose_rect _ _ Hr) as Ht.
  pose proof (transpose_length _ _ Hr) as Hl.
  apply (table_ext c).
  - rewrite <- Hl at 1. apply transpose_rect. exact Ht.
  - exact Hr.
  - apply transpose_length. exact Ht.
  - intros p j. rewrite entry_transpose by exact Ht.
    apply entry_transpose. exact Hr.
Qed.

Lemma column_length c rows j : rect c rows → j < c → length (column j rows) = length rows.
Proof.
  unfold column. induction 1 as [|row rest Hrow _ IH]; intros Hj; simpl.
  - reflexivity.
  - destruct (lookup_lt_is_Some_2 row j) as [x Hx]; [lia|].
    rewrite Hx. simpl. f_equal. apply IH. exact Hj.
Qed.

Lemma column_lookup c rows j p :
  rect c rows → j < c → column j rows !! p = entry rows p j.
Proof.
  unfold column, entry. intros Hr Hj. revert p.
  induction Hr as [|row rest Hrow _ IH]; intros p; simpl.
  - done.
  - destruct (lookup_lt_is_Some_2 row j) as [x Hx]; [lia|].
    rewrite Hx. destruct p as [|p]; simpl; [done|]. apply IH.
Qed.

(** Row [j] of the transpose is column [j] of the table. *)
Lemma transpose_lookup c rows j :
  rect c rows → j < c → transpose c rows !! j = Some (column j rows).
Proof.
  intros Hr Hj.
  destruct (lookup_lt_is_Some_2 (transpose c rows) j) as [col Hc].
  { rewrite transpose_length by exact Hr. exact Hj. }
  rewrite Hc. f_equal. apply list_eq. intros p.
  rewrite (column_lookup c) by assumption.
  rewrite <- (entry_transpose c) by exact Hr.
  unfold entry. rewrite Hc. reflexivity.
Qed.

Lemma transpose_replicate c r row :
  length row = c → transpose c (replicate r row) = map (replicate r) row.
Proof.
  intros Hc. induction r as [|r IH]; simpl.
  - subst c. induction row as [|x row IH]; simpl; [done|]. by f_equal.
  - rewrite IH. clear. induction row as [|x row IH]; simpl; [done|].
    by f_equal.
Qed.
End tables.

(** ** Column-wise application *)

Section along_axis0.
Context {A B : Type} (f : list A → list B).
Hypothesis f_length : ∀ l, length (f l) = length l.
Local Open Scope nat_scope.

Lemma along_axis0_cols c (rows : list (list A)) :
  rect c rows →
  rect (length rows) (map f (transpose c rows)) ∧
  length (map f (transpose c rows)) = c.
Proof.
  intros Hr. split.
  - apply Forall_fmap. eapply Forall_impl; [apply transpose_rect, Hr|].
    intros col Hcol. simpl. rewrite f_length. exact Hcol.
  - rewrite length_map. apply transpose_length, Hr.
Qed.

Lemma along_axis0_length c (rows : list (list A)) :
  rect c rows → length (along_axis0 f c rows) = length rows.
Proof.
  intros Hr. destruct (along_axis0_cols c rows Hr) as [Hc _].
  unfold along_axis0. apply transpose_length, Hc.
Qed.

Lemma along_axis0_rect c (rows : list (list A)) :
  rect c rows → rect c (along_axis0 f c rows).
Proof.
  intros Hr. destruct (along_axis0_cols c rows Hr) as [Hc Hl].
  unfold along_axis0. rewrite <- Hl at 1. apply transpose_rect, Hc.
Qed.

(** Entry [(p, j)] of the result is entry [p] of [f] applied to column
    [j]. *)
Lemma along_axis0_entry c (rows : list (list A)) p j :
  rect c rows → j < c →
  entry (along_axis0 f c rows) p j = f (column j rows) !! p.
Proof.
  intros Hr Hj. destruct (along_axis0_cols c rows Hr) as [Hc _].
  unfold along_axis0. rewrite (entry_transpose _ _ _ _ Hc).
  unfold entry. rewrite list_lookup_fmap, (transpose_lookup c) by assumption.
  reflexivity.
Qed.
End along_axis0.

(** ** Sorting *)

Lemma sort1_perm l : sort1 l ≡ₚ l.
Proof. apply merge_sort_Permutation. Qed.

Lemma sort1_sorted l : StronglySorted Qcle (sort1 l).
Proof. apply StronglySorted_merge_sort; apply _. Qed.

Lemma sort1_length l : length (sort1 l) = length l.
Proof. apply Permutation_length, sort1_perm. Qed.

(** Sorting a constant column changes nothing. *)
Lemma sort1_replicate r x : sort1 (replicate r x) = replicate r x.
Proof. symmetry. apply replicate_Permutation. symmetry. apply sort1_perm. Qed.

Lemma np_sort_constant_columns d c r row :
  length row = c →
  np_sort (Mat d c (replicate r row)) = Mat d c (replicate r row).
Proof.
  intros Hc. simpl. f_equal. unfold along_axis0.
  rewrite length_replicate, (transpose_replicate c) by exact Hc.
  rewrite <- list_fmap_compose.
  rewrite (list_fmap_ext (sort1 ∘ replicate r) (replicate r) row)
    by (intros; apply sort1_replicate).
  rewrite <- (transpose_replicate c) by exact Hc.
  rewrite <- (length_replicate r row) at 1.
  apply transpose_involutive, rect_replicate, Hc.
Qed.

Lemma np_flip_constant_columns d c r (row : list Qc) :
  np_flip (Mat d c (replicate r row)) = Mat d c (replicate r row).
Proof. simpl. f_equal. apply reverse_replicate. Qed.

(** ** The reference distribution *)

Lemma rankdata1_length col : length (rankdata1 col) = length col.
Proof. apply length_map. Qed.

Lemma reference_distribution_Mat d c rows :
  reference_distribution (Mat d c rows)
  = Ok (map np_mean (along_axis0 rankdata1 c rows)).
Proof. reflexivity. Qed.

Lemma reference_length d c rows ref :
  rect c rows → reference_distribution (Mat d c rows) = Ok ref →
  length ref = length rows.
Proof.
  intros Hr [= <-]. rewrite length_map.
  apply along_axis0_length; [apply rankdata1_length | exact Hr].
Qed.

Lemma np_mean_is_Some l : (0 < length l)%nat → is_Some (np_mean l).
Proof. destruct l; simpl; [lia | eauto]. Qed.

(** With at least one column, no entry of the reference distribution is
    [nan]. *)
Lemma reference_no_nan d c rows ref i v :
  rect c rows → (0 < c)%nat →
  reference_distribution (Mat d c rows) = Ok ref →
  ref !! i = Some v → is_Some v.
Proof.
  intros Hr Hc [= <-]. rewrite list_lookup_fmap.
  destruct (along_axis0 rankdata1 c rows !! i) as [row|] eqn:Hrow; [|done].
  intros [= <-]. apply np_mean_is_Some.
  pose proof (along_axis0_rect rankdata1 rankdata1_length c rows Hr) as Hrect.
  rewrite (rect_lookup _ _ _ _ Hrect Hrow). exact Hc.
Qed.

(** ** The remapping loop *)

Lemma remap_loop_replicate d c r ref idx row :
  remap_loop ref idx (Mat d c (replicate r row))
  = row' ←! row_loop d ref idx row; Ok (Mat d c (replicate r row')).
Proof.
  revert row. induction idx as [|i idx IH]; intros row; simpl; [done|].
  destruct (ref !! i) as [[q|]|]; simpl; try done.
  rewrite fmap_replicate. apply IH.
Qed.

Section row_loop.
Local Open Scope nat_scope.
Context (d : dtype) (ref : list (option Qc)).

Lemma row_loop_inv idx row row' :
  row_loop d ref idx row = Ok row' → NoDup idx →
  length row' = length row ∧
  (∀ i, i ∈ idx → ∃ q, ref !! i = Some (Some q) ∧
     (i < length row → row' !! i = Some (astype d q))) ∧
  (∀ i, i ∉ idx → row' !! i = row !! i).
Proof.
  revert row. induction idx as [|k idx IH]; intros row; simpl.
  - intros [= <-] _. split; [done|]. split; [|done].
    intros i Hi. by apply elem_of_nil in Hi.
  - destruct (ref !! k) as [[q|]|] eqn:Hk; simpl; try done.
    intros Hloop Hnd. apply NoDup_cons in Hnd as [Hk_notin Hnd].
    destruct (IH _ Hloop Hnd) as (Hlen & Hin & Hout).
    rewrite length_insert in Hlen. split; [exact Hlen|]. split.
    + intros i Hi. apply elem_of_cons in Hi as [->|Hi].
      * exists q. split; [exact Hk|]. intros Hlt.
        rewrite (Hout _ Hk_notin). by apply list_lookup_insert_eq.
      * destruct (Hin _ Hi) as (q' & Hq' & Hrow).
        exists q'. split; [exact Hq'|].
        intros Hlt. apply Hrow. by rewrite length_insert.
    + intros i Hi. apply not_elem_of_cons in Hi as [Hne Hi].
      rewrite (Hout _ Hi). by apply list_lookup_insert_ne.
Qed.

Lemma row_loop_total idx row :
  (∀ i, i ∈ idx → ∃ q, ref !! i = Some (Some q)) →
  ∃ row', row_loop d ref idx row = Ok row'.
Proof.
  revert row. induction idx as [|k idx IH]; intros row Hall; simpl.
  - eauto.
  - destruct (Hall k) as [q ->]; [left|]. simpl.
    apply IH. intros i Hi. apply Hall. by right.
Qed.

(** The loop stops with [IndexError] at the first index that lies outside
    the reference distribution. *)
Lemma row_loop_index_error idx1 k idx2 row :
  (∀ i, i ∈ idx1 → ∃ q, ref !! i = Some (Some q)) →
  ref !! k = None →
  row_loop d ref (idx1 ++ k :: idx2) row = Raise IndexError.
Proof.
  revert row. induction idx1 as [|i idx1 IH]; intros row Hall Hk; simpl.
  - by rewrite Hk.
  - destruct (Hall i) as [q ->]; [left|]. simpl.
    apply IH; [|exact Hk]. intros j Hj. apply Hall. by right.
Qed.
End row_loop.

(** ** The cell as a whole, on a rectangular table *)

Lemma quantile_pipeline_Mat d c rows :
  rect c rows →
  quantile_pipeline (Mat d c rows)
  = row' ←! row_loop d (map np_mean (along_axis0 rankdata1 c rows))
              (seq 0 c) (replicate c 0);
    Ok (Mat d c (replicate (length rows) row')).
Proof.
  intros Hr. unfold quantile_pipeline. rewrite reference_distribution_Mat.
  simpl bind. unfold sorted_data. simpl np_sort. simpl np_zeros_like.
  simpl shape1. simpl bind.
  rewrite (along_axis0_length sort1 sort1_length c rows Hr).
  rewrite remap_loop_replicate.
  destruct (row_loop _ _ _ _) as [row'|e] eqn:Hloop; cbn [bind]; [|done].
  apply row_loop_inv in Hloop as (Hlen & _ & _); [|apply NoDup_seq].
  rewrite length_replicate in Hlen.
  rewrite np_sort_constant_columns by exact Hlen.
  by rewrite np_flip_constant_columns.
Qed.

(** On a rectangular table the cell completes exactly when the table has no
    more columns than rows. *)
Lemma quantile_pipeline_completes d c rows :
  rect c rows → (c ≤ length rows)%nat →
  ∃ out, quantile_pipeline (Mat d c rows) = Ok out.
Proof.
  intros Hr Hle. rewrite quantile_pipeline_Mat by exact Hr.
  destruct (row_loop_total d (map np_mean (along_axis0 rankdata1 c rows))
              (seq 0 c) (replicate c 0)) as [row' ->]; [|simpl; eauto].
  intros i Hi. apply elem_of_seq in Hi as [_ Hi]. simpl in Hi.
  destruct (lookup_lt_is_Some_2 (map np_mean (along_axis0 rankdata1 c rows)) i)
    as [v Hv].
  { rewrite length_map, (along_axis0_length _ rankdata1_length) by exact Hr.
    lia. }
  destruct (reference_no_nan d c rows _ i v Hr ltac:(lia) eq_refl Hv) as [q ->].
  eauto.
Qed.

Lemma quantile_pipeline_index_error d c rows :
  rect c rows → (length rows < c)%nat →
  quantile_pipeline (Mat d c rows) = Raise IndexError.
Proof.
  intros Hr Hlt. rewrite quantile_pipeline_Mat by exact Hr.
  set (ref := map np_mean (along_axis0 rankdata1 c rows)).
  assert (length ref = length rows) as Hlen.
  { unfold ref.
    rewrite length_map. apply along_axis0_length;
      [apply rankdata1_length | exact Hr]. }
  replace (seq 0 c)
    with (seq 0 (length rows) ++ length rows :: seq (S (length rows)) (c - S (length rows))).
  2:{ replace c with (length rows + S (c - S (length rows)))%nat at 2 by lia.
      by rewrite seq_app. }
  rewrite row_loop_index_error; [done| |].
  - intros i Hi. apply elem_of_seq in Hi as [_ Hi]. simpl in Hi.
    destruct (lookup_lt_is_Some_2 ref i) as [v Hv]; [lia|].
    destruct (reference_no_nan d c rows ref i v Hr ltac:(lia) eq_refl Hv)
      as [q ->].
    eauto.
  - apply lookup_ge_None_2. lia.
Qed.

(** ** Ranks *)

Lemma Qc_of_nat_S n : Qc_of_nat (S n) = Qc_of_nat n + 1.
Proof.
  unfold Qc_of_nat. rewrite Nat2Z.inj_succ, <- Z.add_1_r, Z2Qc_inj_add.
  by rewrite Z2Qc_inj_1.
Qed.

Lemma Qc_of_nat_0 : Qc_of_nat 0 = 0.
Proof. apply Z2Qc_inj_0. Qed.

Lemma Qc_of_nat_add n m : Qc_of_nat (n + m) = Qc_of_nat n + Qc_of_nat m.
Proof. unfold Qc_of_nat. by rewrite Nat2Z.inj_add, Z2Qc_inj_add. Qed.

Lemma Qc_of_nat_pos n : (0 < n)%nat → Qc_of_nat n ≠ 0.
Proof.
  intros Hn Heq. rewrite <- Z2Qc_inj_0 in Heq.
  apply Z2Qc_inj in Heq. lia.
Qed.

(** Twice the sum [a + (a+1) + ... + (a+n-1)]. *)
Lemma Qcsum_seq a n :
  2 * Qcsum (Qc_of_nat <$> seq a n)
  = Qc_of_nat n * (2 * Qc_of_nat a + Qc_of_nat n - 1).
Proof.
  revert a. induction n as [|n IH]; intros a; simpl.
  - rewrite Qc_of_nat_0. ring.
  - rewrite Qcmult_plus_distr_r, IH, !Qc_of_nat_S. ring.
Qed.

Lemma prefix_len_head_false p l :
  match l with [] => True | y :: _ => p y = false end → prefix_len p l = 0%nat.
Proof. destruct l as [|y l]; simpl; [done|]. by intros ->. Qed.

Lemma positions_from_absent k x l :
  Forall (λ z, z ≠ x) l → positions_from k x l = [].
Proof.
  intros Hall. revert k. induction Hall as [|z l Hz _ IH]; intros k; simpl.
  - done.
  - rewrite decide_False by exact Hz. apply IH.
Qed.

Lemma positions_from_present k x l : x ∈ l → positions_from k x l ≠ [].
Proof.
  revert k. induction l as [|y l IH]; intros k Hx; simpl.
  - by apply elem_of_nil in Hx.
  - destruct (decide (y = x)) as [->|Hne]; [done|].
    apply IH. apply elem_of_cons in Hx as [->|Hx]; [done | exact Hx].
Qed.

(** In a sorted column the occurrences of [x] form the block of positions
    from [lo] (the number of smaller values) up to [hi] (the number of values
    that are not larger). *)
Lemma positions_from_sorted k x s :
  StronglySorted Qcle s →
  let lo := prefix_len (λ y, bool_decide (y < x)) s in
  let hi := prefix_len (λ y, bool_decide (y ≤ x)) s in
  (lo ≤ hi)%nat ∧ positions_from k x s = seq (k + lo) (hi - lo).
Proof.
  intros Hs. revert k. induction Hs as [|y s Hs IH Hy]; intros k; simpl.
  - done.
  - destruct (IH (S k)) as [Hle Hpos]. clear IH.
    destruct (decide (y = x)) as [->|Hne].
    + rewrite bool_decide_eq_false_2 by apply (irreflexivity Qclt).
      rewrite bool_decide_eq_true_2 by apply Qcle_refl.
      rewrite Hpos. split; [lia|].
      rewrite prefix_len_head_false.
      2:{ destruct Hy as [|z s' Hz _]; [done|].
          apply bool_decide_eq_false_2, Qcle_not_lt, Hz. }
      rewrite !Nat.add_0_r, !Nat.sub_0_r. reflexivity.
    + destruct (decide (y < x)) as [Hlt|Hnlt].
      * rewrite bool_decide_eq_true_2 by exact Hlt.
        rewrite bool_decide_eq_true_2 by apply Qclt_le_weak, Hlt.
        rewrite Hpos. split; [lia|]. simpl. f_equal. lia.
      * assert (x < y) as Hgt.
        { apply Qcnot_le_lt. intros Hle'. apply Hnlt.
          apply Qcle_lt_or_eq in Hle' as [?|?]; [done|contradiction]. }
        rewrite bool_decide_eq_false_2 by exact Hnlt.
        rewrite bool_decide_eq_false_2 by apply Qclt_not_le, Hgt.
        split; [lia|]. simpl.
        apply positions_from_absent.
        eapply Forall_impl; [exact Hy|]. intros z Hz ->.
        apply (Qclt_not_le _ _ Hgt). exact Hz.
Qed.

(** The rank scipy computes is the glossary's rank: ordinal positions in the
    sorted column, ties averaged. *)
Lemma rank_in_average_rank col x :
  x ∈ col → rank_in (sort1 col) x = average_rank col x.
Proof.
  intros Hx. unfold rank_in, average_rank. cbv zeta.
  destruct (positions_from_sorted 1 x (sort1 col) (sort1_sorted col))
    as [Hle Hpos].
  set (lo := prefix_len (λ y, bool_decide (y < x)) (sort1 col)) in *.
  set (hi := prefix_len (λ y, bool_decide (y ≤ x)) (sort1 col)) in *.
  assert (positions_from 1 x (sort1 col) ≠ []) as Hne.
  { apply positions_from_present. by rewrite sort1_perm. }
  rewrite Hpos in *. rewrite length_seq.
  assert (0 < hi - lo)%nat as Hn.
  { destruct (hi - lo)%nat; [by destruct Hne | lia]. }
  pose proof (Qcsum_seq (1 + lo) (hi - lo)) as Hsum.
  pose proof (Qc_of_nat_pos _ Hn) as Hn0.
  assert (Qc_of_nat hi = Qc_of_nat lo + Qc_of_nat (hi - lo)) as Hhi.
  { rewrite <- Qc_of_nat_add. f_equal. lia. }
  change (1 + lo)%nat with (S lo) in *. rewrite Qc_of_nat_S in Hsum.
  rewrite Hhi.
  set (n := Qc_of_nat (hi - lo)) in *. set (a := Qc_of_nat lo) in *.
  set (S := Qcsum _) in *.
  assert (S = n * (2 * (a + 1) + n - 1) / 2) as ->.
  { rewrite <- Hsum. field. done. }
  field. done.
Qed.

Lemma np_mean_nonempty l :
  (0 < length l)%nat → np_mean l = Some (Qcsum l / Qc_of_nat (length l)).
Proof. destruct l; simpl; [lia | done]. Qed.

(** Row [p] of the rank table lists, column by column, the rank of the
    row's entry within its column. *)
Lemma rank_table_row c rows p row :
  rect c rows → rows !! p = Some row →
  along_axis0 rankdata1 c rows !! p
  = Some (imap (λ j x, average_rank (column j rows) x) row).
Proof.
  intros Hr Hp.
  pose proof (along_axis0_rect rankdata1 rankdata1_length c rows Hr) as Hrect.
  pose proof (along_axis0_length rankdata1 rankdata1_length c rows Hr) as Hlen.
  destruct (lookup_lt_is_Some_2 (along_axis0 rankdata1 c rows) p) as [rrow Hrrow].
  { rewrite Hlen. eapply lookup_lt_Some, Hp. }
  rewrite Hrrow. f_equal. apply list_eq. intros j.
  rewrite list_lookup_imap.
  pose proof (rect_lookup _ _ _ _ Hrect Hrrow) as Hlr.
  pose proof (rect_lookup _ _ _ _ Hr Hp) as Hlrow.
  destruct (decide (j < c)%nat) as [Hj|Hj].
  - assert (rrow !! j = entry (along_axis0 rankdata1 c rows) p j) as ->.
    { unfold entry. by rewrite Hrrow. }
    rewrite (along_axis0_entry rankdata1 rankdata1_length c) by assumption.
    unfold rankdata1. rewrite list_lookup_fmap.
    rewrite (column_lookup c) by assumption.
    unfold entry. rewrite Hp. simpl.
    destruct (row !! j) as [x|] eqn:Hx; simpl; [|done].
    f_equal. apply rank_in_average_rank.
    apply list_elem_of_lookup. exists p.
    rewrite (column_lookup c) by assumption.
    unfold entry. by rewrite Hp.
  - rewrite (lookup_ge_None_2 rrow j), (lookup_ge_None_2 row j) by lia. done.
Qed.

(** C3.  On a rectangular table with [r] rows and at least one column, the
    reference distribution is a sequence of exactly [r] values, and the value
    at row position [p] is the arithmetic mean, over all columns [j], of the
    rank of the entry of row [p] within column [j]; the rank is computed
    within each column separately and ties receive the average of the
    ordinal positions they occupy. *)
Theorem reference_distribution_average_ranks d c rows :
  rect c rows → (0 < c)%nat →
  ∃ ref, reference_distribution (Mat d c rows) = Ok ref ∧
    length ref = length rows ∧
    ∀ p row, rows !! p = Some row →
      ref !! p
      = Some (Some (Qcsum (imap (λ j x, average_rank (column j rows) x) row)
                    / Qc_of_nat c)).
Proof.
  intros Hr Hc. eexists. split; [reflexivity|]. split.
  - by apply (reference_length d c rows).
  - intros p row Hp. rewrite list_lookup_fmap.
    rewrite (rank_table_row c rows p row Hr Hp). simpl. f_equal.
    pose proof (rect_lookup _ _ _ _ Hr Hp) as Hlrow.
    rewrite np_mean_nonempty; rewrite length_imap, Hlrow; [done | exact Hc].
Qed.

Lemma reference_distribution_average_ranks_witness :
  ∃ ref, reference_distribution (Mat int64 2 (int_rows [[1; 2]; [2; 1]]%Z)) = Ok ref ∧
    length ref = 2%nat ∧
    ∀ p row, int_rows [[1; 2]; [2; 1]]%Z !! p = Some row →
      ref !! p
      = Some (Some (Qcsum (imap (λ j x,
                       average_rank (column j (int_rows [[1; 2]; [2; 1]]%Z)) x) row)
                    / Qc_of_nat 2)).
Proof.
  apply (reference_distribution_average_ranks int64 2 (int_rows [[1; 2]; [2; 1]]%Z)).
  - repeat constructor.
  - lia.
Defined.

(** Ties: in the column [3, 1, 3, 2] the two occurrences of 3 occupy the
    ordinal positions 3 and 4 and both receive the rank 3.5. *)
Example rankdata1_ties :
  rankdata1 (map Qc_of_Z [3; 1; 3; 2]%Z)
  = [Qc_of_Z 7 / 2; Qc_of_Z 1; Qc_of_Z 7 / 2; Qc_of_Z 2].
Proof. compute_eq. Qed.

(** ** Evaluating the cell on concrete tables *)

Lemma np_array_sample : np_array sample = Ok (Mat int64 3 sample_rows).
Proof. compute_eq. Qed.

Lemma reference_sample :
  reference_distribution (Mat int64 3 sample_rows)
  = Ok [Some (Qc_of_Z 1); Some (Qc_of_Z 2); Some (Qc_of_Z 3)].
Proof. compute_eq. Qed.


Lemma np_array_crossed : np_array crossed = Ok (Mat int64 2 crossed_rows).
Proof. compute_eq. Qed.

Lemma reference_crossed :
  reference_distribution (Mat int64 2 crossed_rows)
  = Ok [Some (half 3); Some (half 3)].
Proof. compute_eq. Qed.

Lemma quantile_crossed :
  quantile_pipeline (Mat int64 2 crossed_rows)
  = Ok (Mat int64 2 (int_rows [[1; 1]; [1; 1]]%Z)).
Proof. compute_eq. Qed.

Lemma rect_sample_rows : rect 3 sample_rows.
Proof. repeat constructor. Qed.

(** ** What a completed run returns *)

Lemma column_replicate (r j : nat) (row : list Qc) x :
  row !! j = Some x → column j (replicate r row) = replicate r x.
Proof.
  intros Hj. unfold column. induction r as [|r IH]; simpl; [done|].
  rewrite Hj. simpl. by f_equal.
Qed.

Lemma entry_replicate (r p j : nat) (row : list Qc) :
  (p < r)%nat → entry (replicate r row) p j = row !! j.
Proof. intros Hp. unfold entry. by rewrite lookup_replicate_2. Qed.

(** A completed run returns a table all of whose rows are one and the same
    row: entry [i] of that row is entry [i] of the reference distribution,
    converted to the element type of the input. *)
Lemma quantile_pipeline_inv d c rows out :
  rect c rows → quantile_pipeline (Mat d c rows) = Ok out →
  ∃ ref row,
    reference_distribution (Mat d c rows) = Ok ref ∧
    out = Mat d c (replicate (length rows) row) ∧
    length row = c ∧
    ∀ i, (i < c)%nat →
      ∃ q, ref !! i = Some (Some q) ∧ row !! i = Some (astype d q).
Proof.
  intros Hr. rewrite quantile_pipeline_Mat by exact Hr.
  destruct (row_loop _ _ _ _) as [row|e] eqn:Hloop; simpl; [|done].
  intros [= <-]. eexists _, row. split; [reflexivity|].
  apply row_loop_inv in Hloop as (Hlen & Hin & _); [|apply NoDup_seq].
  rewrite length_replicate in Hlen. split; [done|]. split; [done|].
  intros i Hi. destruct (Hin i) as (q & Hq & Hrow).
  { apply elem_of_seq. simpl. lia. }
  exists q. split; [exact Hq|]. apply Hrow. by rewrite length_replicate.
Qed.

(** C6.  When quantile normalization completes on a rectangular table, the
    normalized table has as many rows and as many columns as the input (and
    the same element type). *)
Theorem quantile_preserves_shape d c rows out :
  rect c rows → quantile_pipeline (Mat d c rows) = Ok out →
  ∃ rows', out = Mat d c rows' ∧ length rows' = length rows ∧ rect c rows'.
Proof.
  intros Hr Hout.
  destruct (quantile_pipeline_inv d c rows out Hr Hout)
    as (ref & row & _ & -> & Hlen & _).
  eexists. split; [reflexivity|]. split.
  - apply length_replicate.
  - by apply rect_replicate.
Qed.

Lemma quantile_preserves_shape_witness :
  ∃ rows', Mat int64 2 (int_rows [[1; 1]; [1; 1]]%Z) = Mat int64 2 rows' ∧
    length rows' = length crossed_rows ∧ rect 2 rows'.
Proof.
  apply (quantile_preserves_shape int64 2 crossed_rows).
  - repeat constructor.
  - exact quantile_crossed.
Defined.

(** C9.  On a rectangular table with more columns than rows the cell stops
    with an index error: the reference distribution has one entry per row,
    and the loop indexes it with every column index. *)
Theorem quantile_more_columns_than_rows d c rows :
  rect c rows → (length rows < c)%nat →
  ∃ ref, reference_distribution (Mat d c rows) = Ok ref ∧
    length ref = length rows ∧
    quantile_pipeline (Mat d c rows) = Raise IndexError.
Proof.
  intros Hr Hlt. eexists. split; [reflexivity|]. split.
  - by apply (reference_length d c rows).
  - by apply quantile_pipeline_index_error.
Qed.

Lemma quantile_more_columns_than_rows_witness :
  ∃ ref, reference_distribution (Mat int64 3 (int_rows [[10; 20; 30]]%Z)) = Ok ref ∧
    length ref = 1%nat ∧
    quantile_pipeline (Mat int64 3 (int_rows [[10; 20; 30]]%Z)) = Raise IndexError.
Proof.
  apply (quantile_more_columns_than_rows int64 3 (int_rows [[10; 20; 30]]%Z)).
  - repeat constructor.
  - simpl. lia.
Defined.

(** C8, as stated, fails: on the integer table [[1,2],[2,1]] the reference
    distribution is [1.5, 1.5] while every entry of the output is [1]. *)
Lemma constant_columns_counterexample :
  ¬ (∀ d c rows out ref,
       rect c rows →
       quantile_pipeline (Mat d c rows) = Ok out →
       reference_distribution (Mat d c rows) = Ok ref →
       ∀ p i x, entry (rows_of out) p i = Some x → ref !! i = Some (Some x)).
Proof.
  intros H.
  specialize (H int64 2%nat crossed_rows _ _ ltac:(repeat constructor)
                quantile_crossed reference_crossed 0%nat 0%nat (Qc_of_Z 1) eq_refl).
  discriminate H.
Qed.

(** C8, amended.  When the cell completes on a rectangular table, every
    column of its output is constant: all entries of output column [i] equal
    entry [i] of the reference distribution converted to the element type of
    the input (truncated for an integer table, unchanged for a float table),
    whatever the order of the values in the input column; the final
    per-column sort and the flip leave such a table unchanged. *)
Theorem quantile_constant_columns d c rows out :
  rect c rows → quantile_pipeline (Mat d c rows) = Ok out →
  ∃ ref, reference_distribution (Mat d c rows) = Ok ref ∧
    np_sort out = out ∧ np_flip out = out ∧
    ∀ i, (i < c)%nat →
      ∃ q, ref !! i = Some (Some q) ∧
        column i (rows_of out) = replicate (length rows) (astype d q).
Proof.
  intros Hr Hout.
  destruct (quantile_pipeline_inv d c rows out Hr Hout)
    as (ref & row & Href & -> & Hlen & Hrow).
  exists ref. split; [exact Href|]. split; [|split].
  - by apply np_sort_constant_columns.
  - apply np_flip_constant_columns.
  - intros i Hi. destruct (Hrow i Hi) as (q & Hq & Hx).
    exists q. split; [exact Hq|]. simpl. by apply column_replicate.
Qed.

Lemma quantile_constant_columns_witness :
  ∃ ref, reference_distribution (Mat int64 2 crossed_rows) = Ok ref ∧
    np_sort (Mat int64 2 (int_rows [[1; 1]; [1; 1]]%Z))
      = Mat int64 2 (int_rows [[1; 1]; [1; 1]]%Z) ∧
    np_flip (Mat int64 2 (int_rows [[1; 1]; [1; 1]]%Z))
      = Mat int64 2 (int_rows [[1; 1]; [1; 1]]%Z) ∧
    ∀ i, (i < 2)%nat →
      ∃ q, ref !! i = Some (Some q) ∧
        column i (rows_of (Mat int64 2 (int_rows [[1; 1]; [1; 1]]%Z)))
        = replicate (length crossed_rows) (astype int64 q).
Proof.
  apply (quantile_constant_columns int64 2 crossed_rows).
  - repeat constructor.
  - exact quantile_crossed.
Defined.

(** ** Truncation *)

Lemma Qc_of_nat_nonneg n : 0 ≤ Qc_of_nat n.
Proof.
  unfold Qc_of_nat. rewrite <- Z2Qc_inj_0.
  apply (proj1 (Z2Qc_inj_le 0 (Z.of_nat n))), Nat2Z.is_nonneg.
Qed.

Lemma rank_in_pos s x : 0 < rank_in s x.
Proof.
  unfold rank_in. cbv zeta. unfold Qcdiv.
  apply Qcmult_pos_pos; [|by apply Qcinv_pos].
  apply Qcplus_nonneg_pos; [|done].
  apply Qcplus_nonneg_nonneg; apply Qc_of_nat_nonneg.
Qed.

Lemma Qcsum_nonneg l : Forall (λ x, 0 ≤ x) l → 0 ≤ Qcsum l.
Proof.
  induction 1 as [|x l Hx _ IH]; simpl; [done|].
  by apply Qcplus_nonneg_nonneg.
Qed.

Lemma np_mean_nonneg l q :
  Forall (λ x, 0 ≤ x) l → np_mean l = Some q → 0 ≤ q.
Proof.
  intros Hl. destruct l as [|y l]; [done|]. intros [= <-].
  unfold Qcdiv. apply Qcmult_nonneg_nonneg; [exact (Qcsum_nonneg _ Hl)|].
  apply Qclt_le_weak, Qcinv_pos.
  destruct (Qcle_lt_or_eq _ _ (Qc_of_nat_nonneg (length (y :: l)))) as [?|Heq];
    [done|].
  symmetry in Heq. by apply Qc_of_nat_pos in Heq; [|simpl; lia].
Qed.

(** Every entry of the reference distribution is a mean of ranks, hence not
    negative. *)
Lemma reference_nonneg d c rows ref i q :
  rect c rows → reference_distribution (Mat d c rows) = Ok ref →
  ref !! i = Some (Some q) → 0 ≤ q.
Proof.
  intros Hr [= <-]. rewrite list_lookup_fmap.
  destruct (along_axis0 rankdata1 c rows !! i) as [rrow|] eqn:Hrrow; [|done].
  intros [= Hq]. apply (np_mean_nonneg rrow); [|exact Hq].
  apply Forall_lookup_2. intros j x Hx.
  pose proof (along_axis0_rect rankdata1 rankdata1_length c rows Hr) as Hrect.
  pose proof (rect_lookup _ _ _ _ Hrect Hrrow) as Hlen.
  assert (j < c)%nat as Hj by (rewrite <- Hlen; eapply lookup_lt_Some, Hx).
  assert (entry (along_axis0 rankdata1 c rows) i j = Some x) as He.
  { unfold entry. by rewrite Hrrow. }
  rewrite (along_axis0_entry rankdata1 rankdata1_length c) in He by assumption.
  unfold rankdata1 in He. rewrite list_lookup_fmap in He.
  destruct (column j rows !! i) as [y|]; [|done].
  injection He as <-. apply Qclt_le_weak, rank_in_pos.
Qed.

(** Truncation of a non-negative value rounds down, by less than one. *)
Lemma Qctrunc_bounds q :
  0 ≤ q → Qc_of_Z (Qctrunc q) ≤ q ∧ q < Qc_of_Z (Qctrunc q) + 1.
Proof.
  intros Hq.
  assert (Qctrunc q = Qfloor q) as ->.
  { unfold Qctrunc, Qfloor. destruct q as [[n dn] Hc]. simpl.
    apply Z.quot_div_nonneg; [|done].
    unfold Qcle, Qle in Hq. simpl in Hq. lia. }
  split.
  - unfold Qcle. simpl. apply Qfloor_le.
  - rewrite <- Z2Qc_inj_1, <- Z2Qc_inj_add. unfold Qclt. simpl.
    apply Qlt_floor.
Qed.

(** C10.  On an integer table the output is an integer table: when the cell
    completes (which it does whenever the table has no more columns than
    rows), every entry of output column [i] is the reference value [ref[i]]
    truncated to an integer, so a fractional reference value is rounded down
    by less than one, without any error being raised. *)
Theorem integer_table_truncates c rows :
  rect c rows → (c ≤ length rows)%nat →
  ∃ ref rows',
    reference_distribution (Mat int64 c rows) = Ok ref ∧
    quantile_pipeline (Mat int64 c rows) = Ok (Mat int64 c rows') ∧
    ∀ p i, (p < length rows)%nat → (i < c)%nat →
      ∃ q, ref !! i = Some (Some q) ∧
        entry rows' p i = Some (Qc_of_Z (Qctrunc q)) ∧
        Qc_of_Z (Qctrunc q) ≤ q ∧ q < Qc_of_Z (Qctrunc q) + 1.
Proof.
  intros Hr Hle.
  destruct (quantile_pipeline_completes int64 c rows Hr Hle) as [out Hout].
  destruct (quantile_pipeline_inv int64 c rows out Hr Hout)
    as (ref & row & Href & -> & Hlen & Hrow).
  exists ref, (replicate (length rows) row).
  split; [exact Href|]. split; [exact Hout|].
  intros p i Hp Hi. destruct (Hrow i Hi) as (q & Hq & Hx).
  exists q. split; [exact Hq|]. split.
  - by rewrite entry_replicate.
  - apply Qctrunc_bounds. by apply (reference_nonneg int64 c rows ref i).
Qed.

Lemma integer_table_truncates_witness :
  ∃ ref rows',
    reference_distribution (Mat int64 2 crossed_rows) = Ok ref ∧
    quantile_pipeline (Mat int64 2 crossed_rows) = Ok (Mat int64 2 rows') ∧
    ∀ p i, (p < length crossed_rows)%nat → (i < 2)%nat →
      ∃ q, ref !! i = Some (Some q) ∧
        entry rows' p i = Some (Qc_of_Z (Qctrunc q)) ∧
        Qc_of_Z (Qctrunc q) ≤ q ∧ q < Qc_of_Z (Qctrunc q) + 1.
Proof.
  apply (integer_table_truncates 2 crossed_rows).
  - repeat constructor.
  - simpl. lia.
Defined.

(** A fractional reference value at work: the ranks of [[1,2],[2,1]] disagree
    between the columns, both reference values are [1.5], and the output
    holds [1] everywhere. *)
Example truncation_crossed :
  reference_distribution (Mat int64 2 crossed_rows)
    = Ok [Some (half 3); Some (half 3)] ∧
  Qctrunc (half 3) = 1%Z ∧
  quantile_normalized_data crossed
    = Ok (Mat int64 2 (int_rows [[1; 1]; [1; 1]]%Z)).
Proof.
  split; [exact reference_crossed|]. split; [reflexivity|]. compute_eq.
Qed.

(** ** Rejected inputs *)

Lemma np_array_ragged (py : list (list pynum)) :
  ragged py → np_array py = Raise ValueError.
Proof.
  intros (row1 & row2 & H1 & H2 & Hne).
  destruct py as [|row0 rest]; [by apply elem_of_nil in H1|].
  unfold np_array.
  destruct (forallb _ _) eqn:Hall; [|done].
  rewrite forallb_forall in Hall.
  apply list_elem_of_In, Hall, Nat.eqb_eq in H1.
  apply list_elem_of_In, Hall, Nat.eqb_eq in H2.
  congruence.
Qed.

Lemma rowless_facts (py : list (list pynum)) :
  Forall (λ row, row = []) py →
  forallb (λ row, Nat.eqb (length row) 0) py = true ∧
  concat py = [] ∧
  map (map to_Qc) py = replicate (length py) [].
Proof.
  induction 1 as [|row rest -> _ (IH1 & IH2 & IH3)]; simpl; [done|].
  by rewrite IH1, IH2, IH3.
Qed.

(** A table of rows without columns is returned as it is. *)
Lemma quantile_zero_columns (py : list (list pynum)) :
  py ≠ [] → Forall (λ row, row = []) py →
  quantile_normalized_data py
  = Ok (Mat float64 0 (replicate (length py) [])).
Proof.
  intros Hne Hall. destruct (rowless_facts py Hall) as (H1 & H2 & H3).
  destruct py as [|row0 rest]; [done|]. clear Hne.
  assert (row0 = []) as -> by (by inversion Hall).
  unfold quantile_normalized_data, np_array.
  cbn [length]. rewrite H1, H2, H3. cbn [infer_dtype bind].
  rewrite quantile_pipeline_Mat by (by apply rect_replicate).
  simpl. by rewrite length_replicate.
Qed.

(** What [np.array] makes of a list of rows. *)
Lemma np_array_inv (py : list (list pynum)) a :
  np_array py = Ok a →
  (py = [] ∧ a = Vec float64 []) ∨
  (py ≠ [] ∧ ∃ d c rows,
     a = Mat d c rows ∧ rect c rows ∧ length rows = length py ∧ rect c py).
Proof.
  destruct py as [|row0 rest]; [intros [= <-]; by left|].
  unfold np_array. destruct (forallb _ _) eqn:Hall; [|done].
  intros [= <-]. right. split; [done|]. eexists _, _, _.
  split; [reflexivity|].
  rewrite forallb_forall in Hall.
  assert (rect (length row0) (row0 :: rest)) as Hrect.
  { apply Forall_forall. intros row Hrow%list_elem_of_In.
    by apply Nat.eqb_eq, Hall. }
  split; [|split; [exact (length_map (map to_Qc) (row0 :: rest)) | exact Hrect]].
  change (rect (length row0) (map to_Qc <$> row0 :: rest)).
  apply Forall_fmap. eapply Forall_impl; [exact Hrect|].
  intros row Hrow. unfold compose. rewrite length_map. exact Hrow.
Qed.

(** The cell, from the list literal on: a run that completes was given a
    rectangular list of rows with no more columns than rows, and returns a
    table of its shape. *)
Lemma quantile_normalized_data_inv (py : list (list pynum)) out :
  quantile_normalized_data py = Ok out →
  ∃ d c rows', out = Mat d c rows' ∧ rect c py ∧ rect c rows' ∧
    length rows' = length py ∧ (c ≤ length py)%nat.
Proof.
  unfold quantile_normalized_data.
  destruct (np_array py) as [a|e] eqn:Ha; [|done]. cbn [bind].
  destruct (np_array_inv py a Ha) as [[-> ->]|(_ & d & c & rows & -> & Hr & Hl & Hpy)];
    [done|].
  intros Hout.
  destruct (quantile_pipeline_inv d c rows out Hr Hout)
    as (ref & row & _ & -> & Hlen & _).
  exists d, c, (replicate (length rows) row).
  split; [done|]. split; [done|]. split; [by apply rect_replicate|].
  split; [by rewrite length_replicate|].
  destruct (Nat.le_gt_cases c (length rows)) as [?|Hgt]; [lia|].
  rewrite (quantile_pipeline_index_error d c rows Hr Hgt) in Hout. done.
Qed.

(** C7, as stated, fails: the table [[[]]] (one row, no column) is empty,
    and the cell returns it instead of raising. *)
Lemma fail_fast_counterexample :
  ¬ (∀ py : list (list pynum),
       empty_table py ∨ ragged py →
       ∃ e, quantile_normalized_data py = Raise e).
Proof.
  intros H. destruct (H [[]]) as [e He]; [by left|].
  vm_compute in He. discriminate He.
Qed.

(** C7, amended.  The cell rejects a ragged table ([ValueError], when the
    array is built) and a table without rows ([AxisError], when the means
    along axis 1 are taken). *)
Theorem quantile_rejects_ragged_or_rowless (py : list (list pynum)) :
  ragged py ∨ py = [] →
  quantile_normalized_data py
  = Raise (match py with [] => AxisError | _ => ValueError end).
Proof.
  intros [Hr| ->]; [|reflexivity].
  unfold quantile_normalized_data. rewrite (np_array_ragged py Hr).
  destruct py; [|done].
  destruct Hr as (row1 & _ & H1 & _). by apply elem_of_nil in H1.
Qed.

Lemma quantile_rejects_ragged_or_rowless_witness :
  quantile_normalized_data [ints [10; 20; 30]; ints [40; 50]]%Z
  = Raise ValueError.
Proof.
  apply (quantile_rejects_ragged_or_rowless
           [ints [10; 20; 30]; ints [40; 50]]%Z).
  left. exists (ints [10; 20; 30]%Z), (ints [40; 50]%Z).
  split; [left|]. split; [right; left|]. simpl. lia.
Defined.

(** ** The example of the notebook *)


(** C2 on the notebook's own table.  The reference distribution is
    [1, 2, 3].  The ColumnRemapper of the specification gives the row that
    holds the [k]-th smallest value of a column the [k]-th reference value,
    which yields [[1,1,1],[2,2,2],[3,3,3]]; the cell assigns the single
    value [reference_distribution[i]] to the whole of column [i] and returns
    [[1,2,3],[1,2,3],[1,2,3]].  Row 0 holds the smallest value of column 1
    and receives 2, the second reference value. *)
Theorem column_remapper_sample :
  reference_distribution (Mat int64 3 sample_rows)
    = Ok (map (Some ∘ Qc_of_Z) [1; 2; 3]%Z) ∧
  spec_column_remapper (map Qc_of_Z [1; 2; 3]%Z) 3 sample_rows
    = int_rows [[1; 1; 1]; [2; 2; 2]; [3; 3; 3]]%Z ∧
  quantile_pipeline (Mat int64 3 sample_rows)
    = Ok (Mat int64 3 (int_rows [[1; 2; 3]; [1; 2; 3]; [1; 2; 3]]%Z)) ∧
  entry (int_rows [[1; 2; 3]; [1; 2; 3]; [1; 2; 3]]%Z) 0 1 = Some (Qc_of_Z 2) ∧
  entry (spec_column_remapper (map Qc_of_Z [1; 2; 3]%Z) 3 sample_rows) 0 1
    = Some (Qc_of_Z 1).
Proof.
  split; [exact reference_sample|].
  split; [compute_eq|]. split; [compute_eq|]. split; [reflexivity|compute_eq].
Qed.

(** ** Mean subtraction *)

Lemma Qcsum_shift m l :
  Qcsum (map (λ x, x - m) l) = Qcsum l - Qc_of_nat (length l) * m.
Proof.
  induction l as [|x l IH]; simpl.
  - rewrite Qc_of_nat_0. ring.
  - rewrite IH, Qc_of_nat_S. ring.
Qed.

Lemma normalized_data_nonempty data m :
  np_mean data = Some m →
  mapM id (normalized_data data) = Some (map (λ x, x - m) data).
Proof.
  intros Hm. unfold normalized_data. rewrite Hm. cbv zeta.
  apply mapM_Some_2. apply Forall2_fmap. apply Forall_Forall2_diag.
  apply Forall_true. done.
Qed.

(** C5, as stated, fails on the empty sequence: its mean is [nan], and so is
    the mean of the (empty) output. *)
Lemma mean_subtraction_counterexample :
  ¬ (∀ data : list Qc, np_mean_floats (normalized_data data) = Some 0).
Proof. intros H. specialize (H []). discriminate H. Qed.

(** C5, amended.  For every non-empty sequence, subtracting the arithmetic
    mean from each element yields a sequence whose arithmetic mean is exactly
    0 (in exact rational arithmetic). *)
Theorem mean_subtraction_centres (data : list Qc) :
  data ≠ [] → np_mean_floats (normalized_data data) = Some 0.
Proof.
  intros Hne.
  assert (0 < length data)%nat as Hlen by (destruct data; [done|simpl; lia]).
  pose proof (np_mean_nonempty data Hlen) as Hm.
  unfold np_mean_floats. rewrite (normalized_data_nonempty data _ Hm).
  simpl. rewrite np_mean_nonempty by (by rewrite length_map).
  f_equal. rewrite Qcsum_shift, length_map.
  pose proof (Qc_of_nat_pos _ Hlen) as Hn.
  field. done.
Qed.

Lemma mean_subtraction_centres_witness :
  np_mean_floats (normalized_data (map Qc_of_Z [1; 2; 3; 4; 5]%Z)) = Some 0.
Proof.
  apply (mean_subtraction_centres (map Qc_of_Z [1; 2; 3; 4; 5]%Z)).
  discriminate.
Defined.

Example normalized_data_sample :
  normalized_data (map Qc_of_Z [1; 2; 3; 4; 5]%Z)
  = map (Some ∘ Qc_of_Z) [-2; -1; 0; 1; 2]%Z.
Proof. compute_eq. Qed.

(** ** Decimal scaling *)

Example scaled_data_notebook :
  scaled_data [10; 100; 1000; 10000; 100000]%Z
  = Ok [ binary64_round 1 100000; binary64_round 1 10000;
         binary64_round 1 1000; binary64_round 1 100; binary64_round 1 10 ].
Proof. compute_eq. Qed.

(** The double nearest to one tenth is [0x3FB999999999999A]. *)
Example binary64_tenth :
  binary64_round 1 10 = Qc_of_Z 3602879701896397 / Qc_of_Z (2 ^ 55).
Proof. compute_eq. Qed.

Example binary64_third :
  binary64_round 1 3 = Qc_of_Z 6004799503160661 / Qc_of_Z (2 ^ 54).
Proof. compute_eq. Qed.

Example binary64_smallest :
  binary64_round 1 (2 ^ 1074) = 1 / Qc_of_Z (2 ^ 1074) ∧
  binary64_round 1 (2 ^ 1075) = 0 ∧
  binary64_round 3 (2 ^ 1075) = 2 / Qc_of_Z (2 ^ 1074) ∧
  binary64_round 1 (10 ^ 323) = 2 / Qc_of_Z (2 ^ 1074) ∧
  binary64_round 1 (10 ^ 324) = 0.
Proof. repeat split; compute_eq. Qed.

Section decimal_digits.
Local Open Scope Z_scope.

Lemma digits_fuel_pos fuel n : (1 ≤ digits_fuel fuel n)%nat.
Proof. destruct fuel; simpl; [lia|]. destruct (n <? 10); lia. Qed.

(** With enough fuel, [d = digits_fuel fuel n] is the number of decimal
    digits of [n]: [10^(d-1) <= n < 10^d]. *)
Lemma digits_fuel_spec fuel n :
  0 < n → n < 10 ^ Z.of_nat (S fuel) →
  10 ^ (Z.of_nat (digits_fuel fuel n) - 1) ≤ n < 10 ^ Z.of_nat (digits_fuel fuel n).
Proof.
  revert n. induction fuel as [|fuel IH]; intros n Hpos Hlt.
  - simpl digits_fuel. change (10 ^ (Z.of_nat 1 - 1)) with 1. lia.
  - cbn [digits_fuel]. destruct (Z.ltb_spec n 10) as [Hn|Hn].
    + change (10 ^ (Z.of_nat 1 - 1)) with 1.
      change (10 ^ Z.of_nat 1) with 10. lia.
    + assert (0 < n / 10) as Hq by (apply Z.div_str_pos; lia).
      assert (n / 10 < 10 ^ Z.of_nat (S fuel)) as Hq'.
      { apply Z.div_lt_upper_bound; [lia|].
        rewrite <- Z.pow_succ_r by lia. rewrite <- Nat2Z.inj_succ. exact Hlt. }
      specialize (IH _ Hq Hq').
      pose proof (digits_fuel_pos fuel (n / 10)) as Hd.
      set (d := digits_fuel fuel (n / 10)) in *.
      replace (Z.of_nat (S d) - 1) with (Z.succ (Z.of_nat d - 1)) by lia.
      replace (Z.of_nat (S d)) with (Z.succ (Z.of_nat d)) by lia.
      rewrite !Z.pow_succ_r by lia.
      replace (Z.of_nat d) with (Z.succ (Z.of_nat d - 1)) in IH at 2 by lia.
      replace (Z.of_nat d) with (Z.succ (Z.of_nat d - 1)) at 2 by lia.
      rewrite Z.pow_succ_r in * by lia.
      pose proof (Z.div_mod n 10 ltac:(lia)) as Hdm.
      pose proof (Z.mod_pos_bound n 10 ltac:(lia)) as Hr.
      lia.
Qed.

Lemma decimal_len_spec n :
  0 < n →
  10 ^ (Z.of_nat (decimal_len n) - 1) ≤ n < 10 ^ Z.of_nat (decimal_len n).
Proof.
  intros Hpos. apply digits_fuel_spec; [exact Hpos|].
  pose proof (Z.log2_spec n Hpos) as [_ Hlt].
  pose proof (Z.log2_nonneg n) as Hl.
  rewrite Nat2Z.inj_succ, Z2Nat.id by exact Hl.
  eapply Z.lt_le_trans; [exact Hlt|].
  apply Z.pow_le_mono_l. lia.
Qed.

Lemma decimal_len_le n k :
  0 < n → 0 ≤ k → n < 10 ^ k → Z.of_nat (decimal_len n) ≤ k.
Proof.
  intros Hpos Hk Hlt. destruct (decimal_len_spec n Hpos) as [Hlo _].
  destruct (Z.le_gt_cases (Z.of_nat (decimal_len n)) k) as [?|Hgt]; [done|].
  assert (10 ^ k ≤ 10 ^ (Z.of_nat (decimal_len n) - 1))
    by (apply Z.pow_le_mono_r; lia).
  lia.
Qed.

Lemma foldl_max_spec x rest :
  let m := foldl Z.max x rest in
  x ≤ m ∧ Forall (λ y, y ≤ m) rest ∧ (m = x ∨ m ∈ rest).
Proof.
  revert x. induction rest as [|y rest IH]; intros x; simpl.
  - split; [lia|]. split; [constructor | by left].
  - destruct (IH (Z.max x y)) as (H1 & H2 & H3).
    split; [lia|]. split.
    + constructor; [lia | exact H2].
    + destruct H3 as [H3|H3]; [|right; by right].
      rewrite H3.
      destruct (Z.max_spec x y) as [[_ Hm]|[_ Hm]]; rewrite Hm.
      * right. by left.
      * by left.
Qed.

Lemma py_max_spec data :
  data ≠ [] →
  ∃ m, py_max data = Ok m ∧ m ∈ data ∧ Forall (λ y, y ≤ m) data.
Proof.
  destruct data as [|x rest]; [done|]. intros _.
  destruct (foldl_max_spec x rest) as (H1 & H2 & H3).
  eexists. split; [reflexivity|]. split.
  - destruct H3 as [->|H3]; [by left | by right].
  - by constructor.
Qed.
End decimal_digits.

Section rounding.
Local Open Scope Z_scope.

Lemma round_half_even_lower n d :
  0 ≤ n → 0 < d → n / d ≤ round_half_even n d.
Proof.
  intros Hn Hd. unfold round_half_even. cbv zeta.
  repeat match goal with |- context [if ?c then _ else _] => destruct c end; lia.
Qed.

Lemma round_half_even_upper n d N :
  0 ≤ n → 0 < d → n < d * N → round_half_even n d ≤ N.
Proof.
  intros Hn Hd Hlt.
  pose proof (Z.div_lt_upper_bound n d N Hd Hlt) as Hq.
  unfold round_half_even. cbv zeta.
  repeat match goal with |- context [if ?c then _ else _] => destruct c end; lia.
Qed.

(** The rounded value is within one half of the quotient. *)
Lemma round_half_even_nearest n d :
  0 ≤ n → 0 < d → Z.abs (2 * (round_half_even n d * d - n)) ≤ d.
Proof.
  intros Hn Hd.
  pose proof (Z.div_mod n d ltac:(lia)) as Hdm.
  pose proof (Z.mod_pos_bound n d Hd) as Hr.
  unfold round_half_even. cbv zeta.
  destruct (Z.ltb_spec (2 * (n mod d)) d); [nia|].
  destruct (Z.ltb_spec d (2 * (n mod d))); [nia|].
  destruct (Z.even (n / d)); nia.
Qed.

Lemma floor_log2_ratio_nonpos a b :
  0 < a → a < b → floor_log2_ratio a b ≤ 0.
Proof.
  intros Ha Hab. unfold floor_log2_ratio. cbv zeta.
  pose proof (Z.log2_le_mono a b ltac:(lia)) as Hl.
  destruct (scaled_le _ _ _); lia.
Qed.

(** [floor_log2_ratio a b] is the exponent of the quotient:
    [2^e <= a / b < 2^(e+1)]. *)
Lemma floor_log2_ratio_spec a b :
  0 < a → 0 < b →
  scaled_le b (floor_log2_ratio a b) a = true ∧
  scaled_le b (floor_log2_ratio a b + 1) a = false.
Proof.
  intros Ha Hb. unfold floor_log2_ratio. cbv zeta.
  pose proof (Z.log2_spec a Ha) as [Hla Hla'].
  pose proof (Z.log2_spec b Hb) as [Hlb Hlb'].
  pose proof (Z.log2_nonneg a) as Hna.
  pose proof (Z.log2_nonneg b) as Hnb.
  set (la := Z.log2 a) in *. set (lb := Z.log2 b) in *.
  assert (∀ x y, 0 ≤ x → 0 ≤ y → 2 ^ x * 2 ^ y = 2 ^ (x + y)) as Hadd
    by (intros; by rewrite Z.pow_add_r).
  assert (∀ x, 0 ≤ x → 0 < 2 ^ x) as Hpos
    by (intros; by apply Z.pow_pos_nonneg).
  destruct (scaled_le b (la - lb) a) eqn:Hk.
  - split; [exact Hk|]. unfold scaled_le.
    destruct (Z.leb_spec 0 (la - lb + 1)) as [Hs|Hs].
    + apply Z.leb_gt.
      pose proof (Hadd lb (la - lb + 1) Hnb Hs) as Hp.
      replace (lb + (la - lb + 1)) with (Z.succ la)%Z in Hp by lia.
      pose proof (Hpos (la - lb + 1) Hs). nia.
    + apply Z.leb_gt.
      pose proof (Hadd (Z.succ la) (- (la - lb + 1)) ltac:(lia) ltac:(lia)) as Hp.
      replace (Z.succ la + - (la - lb + 1)) with lb in Hp by lia.
      pose proof (Hpos (- (la - lb + 1)) ltac:(lia)). nia.
  - replace (la - lb - 1 + 1) with (la - lb) by lia.
    split; [|exact Hk]. unfold scaled_le.
    destruct (Z.leb_spec 0 (la - lb - 1)) as [Hs|Hs].
    + apply Z.leb_le.
      pose proof (Hadd (Z.succ lb) (la - lb - 1) ltac:(lia) Hs) as Hp.
      replace (Z.succ lb + (la - lb - 1)) with la in Hp by lia.
      pose proof (Hpos (la - lb - 1) Hs). nia.
    + apply Z.leb_le.
      pose proof (Hadd la (- (la - lb - 1)) Hna ltac:(lia)) as Hp.
      replace (la + - (la - lb - 1)) with (Z.succ lb) in Hp by lia.
      pose proof (Hpos (- (la - lb - 1)) ltac:(lia)). nia.
Qed.

(** The lower bound, written for [e <= 0]. *)
Lemma floor_log2_ratio_lower a b :
  0 < a → 0 < b → floor_log2_ratio a b ≤ 0 →
  b ≤ a * 2 ^ (- floor_log2_ratio a b).
Proof.
  intros Ha Hb He.
  destruct (floor_log2_ratio_spec a b Ha Hb) as [Hlo _].
  unfold scaled_le in Hlo.
  destruct (Z.leb_spec 0 (floor_log2_ratio a b)) as [H0|H0].
  - replace (floor_log2_ratio a b) with 0 in * by lia.
    apply Z.leb_le in Hlo. simpl in *. lia.
  - by apply Z.leb_le in Hlo.
Qed.
End rounding.

Lemma Qc_of_Z_le n m : (n ≤ m)%Z → Qc_of_Z n ≤ Qc_of_Z m.
Proof. apply (proj1 (Z2Qc_inj_le n m)). Qed.

Lemma Qc_of_Z_lt n m : (n < m)%Z → Qc_of_Z n < Qc_of_Z m.
Proof. apply (proj1 (Z2Qc_inj_lt n m)). Qed.

Lemma Qc_ratio_unit m P :
  (0 < P)%Z → (0 ≤ m ≤ P)%Z →
  0 ≤ Qc_of_Z m / Qc_of_Z P ∧ Qc_of_Z m / Qc_of_Z P ≤ 1 ∧
  ((0 < m)%Z → 0 < Qc_of_Z m / Qc_of_Z P).
Proof.
  intros HP [Hm0 HmP].
  assert (0 < Qc_of_Z P) as HPq.
  { rewrite <- Z2Qc_inj_0. by apply Qc_of_Z_lt. }
  assert (0 ≤ Qc_of_Z m) as Hmq.
  { rewrite <- Z2Qc_inj_0. by apply Qc_of_Z_le. }
  pose proof (Qcinv_pos _ HPq) as Hinv.
  unfold Qcdiv. split; [|split].
  - apply Qcmult_nonneg_nonneg; [done | by apply Qclt_le_weak].
  - apply (Qcmult_le_mono_pos_r _ _ (Qc_of_Z P) HPq).
    rewrite <- Qcmult_assoc, Qcmult_inv_l, Qcmult_1_r, Qcmult_1_l.
    + by apply Qc_of_Z_le.
    + intros Heq. rewrite Heq in HPq. by apply (irreflexivity Qclt) in HPq.
  - intros Hm. apply Qcmult_pos_pos; [|done].
    rewrite <- Z2Qc_inj_0. by apply Qc_of_Z_lt.
Qed.

(** A quotient below one rounds into [[0, 1]]; it rounds to a positive
    float unless it is smaller than the smallest positive float,
    [2^(-1074)]. *)
Lemma binary64_round_unit a b :
  (0 < a)%Z → (a < b)%Z →
  0 ≤ binary64_round a b ∧ binary64_round a b ≤ 1 ∧
  ((b ≤ a * 2 ^ 1074)%Z → 0 < binary64_round a b).
Proof.
  intros Ha Hab. unfold binary64_round. cbv zeta.
  pose proof (floor_log2_ratio_nonpos a b Ha Hab) as He.
  pose proof (floor_log2_ratio_lower a b Ha ltac:(lia) He) as Hlow.
  set (e := floor_log2_ratio a b) in *.
  assert (0 ≤ 52 - Z.max e (-1022) ≤ 1074)%Z as Hs by lia.
  set (s := (52 - Z.max e (-1022))%Z) in *.
  destruct (Z.leb_spec 0 s) as [_|?]; [|lia].
  assert (0 < 2 ^ s)%Z as Hpow by (apply Z.pow_pos_nonneg; lia).
  pose proof (round_half_even_lower (a * 2 ^ s) b ltac:(nia) ltac:(lia)) as Hlo.
  pose proof (round_half_even_upper (a * 2 ^ s) b (2 ^ s)
                ltac:(nia) ltac:(lia) ltac:(nia)) as Hup.
  assert (0 ≤ a * 2 ^ s / b)%Z as Hq0 by (apply Z.div_pos; nia).
  destruct (Qc_ratio_unit (round_half_even (a * 2 ^ s) b) (2 ^ s) Hpow
              ltac:(lia)) as (H0 & H1 & Hpos).
  split; [exact H0|]. split; [exact H1|].
  intros Hsmall. apply Hpos.
  assert (b ≤ a * 2 ^ s)%Z as Hge.
  { destruct (Z.le_gt_cases (-1022) e) as [Hnorm|Hsub].
    - assert (s = 52 + - e)%Z as -> by lia.
      rewrite Z.pow_add_r by lia.
      assert (1 ≤ 2 ^ 52)%Z by (apply Z.lt_pred_le, Z.pow_pos_nonneg; lia).
      assert (0 ≤ a * 2 ^ (- e))%Z by lia.
      nia.
    - assert (s = 1074)%Z as -> by lia. exact Hsmall. }
  assert (1 ≤ a * 2 ^ s / b)%Z; [|lia].
  apply Z.div_le_lower_bound; lia.
Qed.

Lemma py_truediv_unit a b :
  (0 < a)%Z → (a < b)%Z → py_truediv a b = Ok (binary64_round a b).
Proof.
  intros Ha Hab. unfold py_truediv.
  destruct (Z.eqb_spec b 0) as [?|_]; [lia|].
  destruct (Z.eqb_spec a 0) as [?|_]; [lia|].
  rewrite !Z.abs_eq by lia. cbv zeta.
  destruct (binary64_round_unit a b Ha Hab) as (_ & Hle & _).
  rewrite bool_decide_eq_false_2.
  2:{ apply Qclt_not_le. eapply Qcle_lt_trans; [exact Hle|].
      rewrite <- Z2Qc_inj_1. apply Qc_of_Z_lt.
      apply Z.pow_gt_1; lia. }
  rewrite !Z.sgn_pos by lia. reflexivity.
Qed.

Lemma comprehension_ok {A B} (f : A → result B) (g : A → B) l :
  Forall (λ x, f x = Ok (g x)) l → comprehension f l = Ok (map g l).
Proof.
  induction 1 as [|x l Hx _ IH]; simpl; [done|]. by rewrite Hx, IH.
Qed.

(** What the cell computes on a dataset of positive integers whose largest
    element has at most 4300 digits. *)
Lemma scaled_data_positive data :
  data ≠ [] → Forall (λ x, 0 < x)%Z data →
  Forall (λ x, x < 10 ^ 4300)%Z data →
  ∃ m, py_max data = Ok m ∧
    Forall (λ x, 0 < x ∧ x < 10 ^ Z.of_nat (decimal_len m))%Z data ∧
    scaled_data data
    = Ok (map (λ x, binary64_round x (10 ^ Z.of_nat (decimal_len m))) data).
Proof.
  intros Hne Hpos Hsmall.
  destruct (py_max_spec data Hne) as (m & Hmax & Hin & Hle).
  exists m. split; [exact Hmax|].
  assert (0 < m)%Z as Hm by exact (proj1 (Forall_forall _ _) Hpos m Hin).
  assert (m < 10 ^ 4300)%Z as Hm' by exact (proj1 (Forall_forall _ _) Hsmall m Hin).
  destruct (decimal_len_spec m Hm) as [_ Hlt].
  pose proof (decimal_len_le m 4300 Hm ltac:(lia) Hm') as Hd.
  assert (Forall (λ x, 0 < x ∧ x < 10 ^ Z.of_nat (decimal_len m))%Z data) as Hall.
  { apply Forall_forall. intros x Hx. split.
    - exact (proj1 (Forall_forall _ _) Hpos x Hx).
    - pose proof (proj1 (Forall_forall _ _) Hle x Hx). simpl in *. lia. }
  split; [exact Hall|].
  unfold scaled_data. rewrite Hmax. cbn [bind]. unfold py_str_len.
  rewrite Z.abs_eq by lia. cbv zeta.
  destruct (Nat.ltb_spec 4300 (decimal_len m)) as [?|_]; [lia|].
  destruct (Z.ltb_spec m 0) as [?|_]; [lia|]. cbn [bind].
  apply comprehension_ok.
  eapply Forall_impl; [exact Hall|]. intros x [Hx0 Hx1]. simpl.
  by apply py_truediv_unit.
Qed.

(** C4, as stated, fails: in the dataset [[1, 10^323]] the maximum has 324
    digits, and [1 / 10^324] underflows to [0.0], which is not in (0,1]. *)
Lemma decimal_scaling_counterexample :
  ¬ (∀ data out,
       Forall (λ x, 0 < x)%Z data → scaled_data data = Ok out →
       Forall (λ v, 0 < v ∧ v ≤ 1) out).
Proof.
  intros H.
  assert (scaled_data [1; 10 ^ 323]%Z = Ok [0; binary64_round 1 10]) as Hrun
    by compute_eq.
  assert (Forall (λ x, 0 < x)%Z [1; 10 ^ 323]%Z) as Hpos.
  { constructor; [lia|]. constructor; [|constructor].
    apply Z.pow_pos_nonneg; lia. }
  specialize (H _ _ Hpos Hrun).
  apply Forall_cons_1 in H as [[H0 _] _].
  by apply (irreflexivity Qclt) in H0.
Qed.

(** C4, amended.  For every non-empty dataset of positive integers whose
    maximum has at most 323 decimal digits, decimal scaling returns one
    float per value and all of them lie in the half-open interval (0,1]. *)
Theorem decimal_scaling_unit_interval data :
  data ≠ [] → Forall (λ x, 0 < x)%Z data → Forall (λ x, x < 10 ^ 323)%Z data →
  ∃ out, scaled_data data = Ok out ∧ length out = length data ∧
    Forall (λ v, 0 < v ∧ v ≤ 1) out.
Proof.
  intros Hne Hpos Hsmall.
  destruct (scaled_data_positive data Hne Hpos) as (m & Hmax & Hall & Hrun).
  { eapply Forall_impl; [exact Hsmall|]. intros x Hx. simpl in *.
    assert (10 ^ 323 ≤ 10 ^ 4300)%Z by (apply Z.pow_le_mono_r; lia). lia. }
  eexists. split; [exact Hrun|]. split; [by rewrite length_map|].
  destruct (py_max_spec data Hne) as (m' & Hmax' & Hin & _).
  rewrite Hmax in Hmax'. injection Hmax' as <-.
  assert (0 < m)%Z as Hm by exact (proj1 (Forall_forall _ _) Hpos m Hin).
  assert (m < 10 ^ 323)%Z as Hm' by exact (proj1 (Forall_forall _ _) Hsmall m Hin).
  pose proof (decimal_len_le m 323 Hm ltac:(lia) Hm') as Hd.
  assert (10 ^ Z.of_nat (decimal_len m) ≤ 2 ^ 1074)%Z as Hscale.
  { transitivity (10 ^ 323)%Z; [apply Z.pow_le_mono_r; lia|].
    apply Z.leb_le. vm_compute. reflexivity. }
  apply Forall_fmap. eapply Forall_impl; [exact Hall|].
  intros x [Hx0 Hx1]. simpl.
  destruct (binary64_round_unit x _ Hx0 Hx1) as (_ & Hle & Hgt).
  split; [|exact Hle]. apply Hgt.
  assert (0 < 2 ^ 1074)%Z by (apply Z.pow_pos_nonneg; lia).
  nia.
Qed.

Lemma decimal_scaling_unit_interval_witness :
  ∃ out, scaled_data [10; 100; 1000; 10000; 100000]%Z = Ok out ∧
    length out = 5%nat ∧ Forall (λ v, 0 < v ∧ v ≤ 1) out.
Proof.
  apply (decimal_scaling_unit_interval [10; 100; 1000; 10000; 100000]%Z).
  - discriminate.
  - repeat constructor.
  - repeat (constructor; [apply Z.ltb_lt; vm_compute; reflexivity|]).
    constructor.
Defined.

(** * Further properties of the cells *)

(** ** Ranks by counting *)

Section counting.
Local Open Scope nat_scope.

Lemma prefix_len_le_length p l : prefix_len p l ≤ length l.
Proof.
  induction l as [|y l IH]; simpl; [lia|]. destruct (p y); lia.
Qed.

(** On a sorted column, the prefix of the values below a bound holds all the
    values below that bound. *)
Lemma prefix_len_sorted_filter (P : Qc → Prop) `{∀ y, Decision (P y)} s :
  (∀ y z, (y ≤ z)%Qc → P z → P y) →
  StronglySorted Qcle s →
  prefix_len (λ y, bool_decide (P y)) s = length (filter P s).
Proof.
  intros Hdown Hs. induction Hs as [|y s Hs IH Hy]; simpl; [done|].
  destruct (decide (P y)) as [Hp|Hp].
  - rewrite bool_decide_eq_true_2 by done.
    rewrite filter_cons_True by done. simpl. by rewrite IH.
  - rewrite bool_decide_eq_false_2 by done.
    rewrite filter_cons_False by done.
    assert (filter P s = []) as ->; [|done].
    clear IH Hs. induction Hy as [|z s Hz _ IH]; [done|].
    rewrite filter_cons_False; [exact IH|].
    intros Hpz. apply Hp. by apply (Hdown y z).
Qed.

Lemma filter_length_perm (P : Qc → Prop) `{∀ y, Decision (P y)} l1 l2 :
  l1 ≡ₚ l2 → length (filter P l1) = length (filter P l2).
Proof. intros Hp. by rewrite Hp. Qed.

Lemma filter_length_complement (P Q : Qc → Prop)
    `{∀ y, Decision (P y)} `{∀ y, Decision (Q y)} l :
  (∀ y, P y ↔ ¬ Q y) →
  length (filter P l) + length (filter Q l) = length l.
Proof.
  intros HPQ. induction l as [|y l IH]; simpl; [done|].
  destruct (decide (P y)) as [Hp|Hp].
  - rewrite filter_cons_True by done.
    rewrite (filter_cons_False Q) by (by apply HPQ). simpl. lia.
  - rewrite filter_cons_False by done.
    rewrite (filter_cons_True Q).
    + simpl. lia.
    + destruct (decide (Q y)) as [?|Hq]; [done|]. by apply HPQ in Hq.
Qed.

Lemma filter_length_le (P Q : Qc → Prop)
    `{∀ y, Decision (P y)} `{∀ y, Decision (Q y)} l :
  (∀ y, P y → Q y) → length (filter P l) ≤ length (filter Q l).
Proof.
  intros HPQ. induction l as [|y l IH]; simpl; [done|].
  destruct (decide (P y)) as [Hp|Hp].
  - rewrite filter_cons_True by done.
    rewrite (filter_cons_True Q) by auto. simpl. lia.
  - rewrite filter_cons_False by done.
    destruct (decide (Q y)).
    + rewrite (filter_cons_True Q) by done. simpl. lia.
    + by rewrite (filter_cons_False Q) by done.
Qed.
End counting.

(** The rank in terms of counts: with [lt] smaller values and [le] values
    that are not larger, the rank is [(lt + le + 1) / 2]. *)
Lemma rank_in_counts col x :
  rank_in (sort1 col) x
  = (Qc_of_nat (count_lt col x) + Qc_of_nat (count_le col x) + 1) / 2.
Proof.
  unfold rank_in, count_lt, count_le. cbv zeta.
  rewrite (prefix_len_sorted_filter (λ y, y < x)).
  - rewrite (prefix_len_sorted_filter (λ y, y ≤ x)).
    + by rewrite !(filter_length_perm _ _ _ (sort1_perm col)).
    + intros y z Hyz Hz. by apply Qcle_trans with z.
    + apply sort1_sorted.
  - intros y z Hyz Hz. by apply Qcle_lt_trans with z.
  - apply sort1_sorted.
Qed.

Lemma count_lt_le col x : (count_lt col x ≤ count_le col x)%nat.
Proof. unfold count_lt, count_le. apply filter_length_le. intros y. apply Qclt_le_weak. Qed.

Lemma count_lt_cons y col x :
  count_lt (y :: col) x
  = ((if decide (y < x)%Qc then 1 else 0) + count_lt col x)%nat.
Proof.
  unfold count_lt. destruct (decide (y < x)).
  - by rewrite filter_cons_True.
  - by rewrite filter_cons_False.
Qed.

Lemma count_le_cons y col x :
  count_le (y :: col) x
  = ((if decide (y ≤ x)%Qc then 1 else 0) + count_le col x)%nat.
Proof.
  unfold count_le. destruct (decide (y ≤ x)).
  - by rewrite filter_cons_True.
  - by rewrite filter_cons_False.
Qed.

Lemma count_le_length col x : (count_le col x ≤ length col)%nat.
Proof. apply length_filter. Qed.

Lemma count_lt_present col x :
  x ∈ col → (count_lt col x < count_le col x)%nat.
Proof.
  induction col as [|y col IH]; intros Hx; [by apply elem_of_nil in Hx|].
  pose proof (count_lt_le col x) as Hle.
  rewrite count_lt_cons, count_le_cons.
  destruct (decide (y = x)) as [->|Hne].
  - rewrite decide_False by apply (irreflexivity Qclt).
    rewrite decide_True by apply Qcle_refl. lia.
  - apply elem_of_cons in Hx as [->|Hx]; [done|]. specialize (IH Hx).
    destruct (decide (y < x)) as [Hlt|Hnlt].
    + rewrite decide_True by (by apply Qclt_le_weak). lia.
    + destruct (decide (y ≤ x)); lia.
Qed.

Lemma Qc_of_nat_le n m : (n ≤ m)%nat → Qc_of_nat n ≤ Qc_of_nat m.
Proof. intros H. apply Qc_of_Z_le. lia. Qed.

Lemma Qc_of_nat_lt n m : (n < m)%nat → Qc_of_nat n < Qc_of_nat m.
Proof. intros H. apply Qc_of_Z_lt. lia. Qed.

Lemma Qc_of_nat_1 : Qc_of_nat 1 = 1.
Proof. apply Z2Qc_inj_1. Qed.

Lemma Qc_of_nat_mul n m : Qc_of_nat (n * m) = Qc_of_nat n * Qc_of_nat m.
Proof. unfold Qc_of_nat. by rewrite Nat2Z.inj_mul, Z2Qc_inj_mul. Qed.

Lemma Qc_half_le a b : a ≤ b → a / 2 ≤ b / 2.
Proof. intros H. unfold Qcdiv. by apply Qcmult_le_mono_nonneg_r. Qed.

Lemma Qc_half_lt a b : a < b → a / 2 < b / 2.
Proof. intros H. unfold Qcdiv. by apply Qcmult_lt_mono_pos_r. Qed.

(** The rank with the counts added up in the natural numbers. *)
Lemma rank_in_nat col x :
  rank_in (sort1 col) x
  = Qc_of_nat (count_lt col x + count_le col x + 1) / 2.
Proof.
  rewrite rank_in_counts, !Qc_of_nat_add, Qc_of_nat_1. reflexivity.
Qed.

(** A rank lies between 1 and the length of the column. *)
Lemma rank_in_range col x :
  x ∈ col →
  1 ≤ rank_in (sort1 col) x ∧ rank_in (sort1 col) x ≤ Qc_of_nat (length col).
Proof.
  intros Hx. rewrite rank_in_nat.
  pose proof (count_lt_present col x Hx) as Hlt.
  pose proof (count_le_length col x) as Hle.
  split.
  - replace 1 with (Qc_of_nat 2 / 2) at 1 by (by apply Qc_is_canon).
    apply Qc_half_le, Qc_of_nat_le. lia.
  - replace (Qc_of_nat (length col))
      with (Qc_of_nat (2 * length col) / 2).
    + apply Qc_half_le, Qc_of_nat_le. lia.
    + rewrite Qc_of_nat_mul.
      replace (Qc_of_nat 2) with 2 by (by apply Qc_is_canon). field. done.
Qed.

Lemma Qcsum_bounds lo hi l :
  Forall (λ x, lo ≤ x ∧ x ≤ hi) l →
  Qc_of_nat (length l) * lo ≤ Qcsum l ∧ Qcsum l ≤ Qc_of_nat (length l) * hi.
Proof.
  induction 1 as [|x l [Hlo Hhi] _ [IH1 IH2]]; simpl.
  - rewrite Qc_of_nat_0, !Qcmult_0_l. done.
  - rewrite Qc_of_nat_S, !Qcmult_plus_distr_l, !Qcmult_1_l.
    rewrite (Qcplus_comm _ lo), (Qcplus_comm _ hi).
    split; by apply Qcplus_le_compat.
Qed.

(** A mean lies between the bounds of the values it averages. *)
Lemma np_mean_bounds lo hi l q :
  Forall (λ x, lo ≤ x ∧ x ≤ hi) l → np_mean l = Some q → lo ≤ q ∧ q ≤ hi.
Proof.
  intros Hl Hq.
  assert (0 < length l)%nat as Hlen by (destruct l; [done | simpl; lia]).
  rewrite np_mean_nonempty in Hq by exact Hlen. injection Hq as <-.
  destruct (Qcsum_bounds lo hi l Hl) as [H1 H2].
  assert (0 < Qc_of_nat (length l)) as Hn.
  { rewrite <- Qc_of_nat_0. by apply Qc_of_nat_lt. }
  assert (Qc_of_nat (length l) ≠ 0) as Hn0 by (by apply Qc_of_nat_pos).
  split.
  - apply (Qcmult_le_mono_pos_l _ _ _ Hn).
    replace (Qc_of_nat (length l) * (Qcsum l / Qc_of_nat (length l)))
      with (Qcsum l) by (field; done).
    exact H1.
  - apply (Qcmult_le_mono_pos_l _ _ _ Hn).
    replace (Qc_of_nat (length l) * (Qcsum l / Qc_of_nat (length l)))
      with (Qcsum l) by (field; done).
    exact H2.
Qed.

(** Every entry of the rank table is the rank of an entry of the data
    within its column. *)
Lemma rank_table_entry c rows p j rrow v :
  rect c rows →
  along_axis0 rankdata1 c rows !! p = Some rrow → rrow !! j = Some v →
  ∃ y, y ∈ column j rows ∧ v = rank_in (sort1 (column j rows)) y ∧
    length (column j rows) = length rows.
Proof.
  intros Hr Hrrow Hv.
  pose proof (along_axis0_rect rankdata1 rankdata1_length c rows Hr) as Hrect.
  pose proof (rect_lookup _ _ _ _ Hrect Hrrow) as Hlen.
  assert (j < c)%nat as Hj by (rewrite <- Hlen; eapply lookup_lt_Some, Hv).
  assert (entry (along_axis0 rankdata1 c rows) p j = Some v) as He.
  { unfold entry. by rewrite Hrrow. }
  rewrite (along_axis0_entry rankdata1 rankdata1_length c) in He by assumption.
  unfold rankdata1 in He. rewrite list_lookup_fmap in He.
  destruct (column j rows !! p) as [y|] eqn:Hy; [|done].
  injection He as <-. exists y. split; [|split; [done|]].
  - apply list_elem_of_lookup. by exists p.
  - by apply (column_length c).
Qed.

Lemma reference_range d c rows ref p q :
  rect c rows → reference_distribution (Mat d c rows) = Ok ref →
  ref !! p = Some (Some q) → 1 ≤ q ∧ q ≤ Qc_of_nat (length rows).
Proof.
  intros Hr [= <-]. rewrite list_lookup_fmap.
  destruct (along_axis0 rankdata1 c rows !! p) as [rrow|] eqn:Hrrow; [|done].
  intros [= Hq]. apply (np_mean_bounds _ _ rrow); [|exact Hq].
  apply Forall_lookup_2. intros j v Hv.
  destruct (rank_table_entry c rows p j rrow v Hr Hrrow Hv) as (y & Hy & -> & Hl).
  rewrite <- Hl. by apply rank_in_range.
Qed.

Lemma astype_range d q n :
  1 ≤ q → q ≤ n → 1 ≤ astype d q ∧ astype d q ≤ n.
Proof.
  intros H1 Hn. destruct d; simpl; [|done].
  assert (0 ≤ q) as H0 by (by apply Qcle_trans with 1).
  destruct (Qctrunc_bounds q H0) as [Hlo Hhi]. split.
  - rewrite <- Z2Qc_inj_1. apply Qc_of_Z_le.
    assert (0 < Qc_of_Z (Qctrunc q)) as Hpos.
    { apply (Qcplus_lt_mono_r _ _ 1). rewrite Qcplus_0_l.
      by apply Qcle_lt_trans with q. }
    rewrite <- Z2Qc_inj_0 in Hpos. apply Z2Qc_inj_lt in Hpos. lia.
  - by apply Qcle_trans with q.
Qed.

(** X2.  Whatever the values of the table, every entry of a normalized table
    lies between 1 and the number of rows. *)
Theorem quantile_output_range d c rows out :
  rect c rows → quantile_pipeline (Mat d c rows) = Ok out →
  Forall (Forall (λ x, 1 ≤ x ∧ x ≤ Qc_of_nat (length rows))) (rows_of out).
Proof.
  intros Hr Hout.
  destruct (quantile_pipeline_inv d c rows out Hr Hout)
    as (ref & row & Href & -> & Hlen & Hrow).
  simpl. apply Forall_replicate. apply Forall_lookup_2. intros i x Hx.
  assert (i < c)%nat as Hi by (rewrite <- Hlen; eapply lookup_lt_Some, Hx).
  destruct (Hrow i Hi) as (q & Hq & Hx'). rewrite Hx in Hx'.
  injection Hx' as ->.
  destruct (reference_range d c rows ref i q Hr Href Hq) as [H1 H2].
  by apply astype_range.
Qed.

Lemma quantile_output_range_witness :
  Forall (Forall (λ x, 1 ≤ x ∧ x ≤ Qc_of_nat (length crossed_rows)))
    (rows_of (Mat int64 2 (int_rows [[1; 1]; [1; 1]]%Z))).
Proof.
  apply (quantile_output_range int64 2 crossed_rows).
  - repeat constructor.
  - exact quantile_crossed.
Defined.

(** ** Ranks follow the order of the values *)

Lemma rank_in_lt col x y :
  x ∈ col → x < y → rank_in (sort1 col) x < rank_in (sort1 col) y.
Proof.
  intros Hx Hxy. rewrite !rank_in_nat. apply Qc_half_lt, Qc_of_nat_lt.
  pose proof (count_lt_present col x Hx) as H1.
  pose proof (count_lt_le col y) as H2.
  assert (count_le col x ≤ count_lt col y)%nat as H3.
  { apply filter_length_le. intros z Hz. by apply Qcle_lt_trans with x. }
  lia.
Qed.

(** X4.  [rankdata] preserves the order of the values of a column, and gives
    equal values equal ranks: the value at position [i] is smaller than the
    value at position [j] exactly when its rank is. *)
Theorem rankdata1_order_preserving col i j x y rx ry :
  col !! i = Some x → col !! j = Some y →
  rankdata1 col !! i = Some rx → rankdata1 col !! j = Some ry →
  (x < y ↔ rx < ry) ∧ (x = y ↔ rx = ry).
Proof.
  intros Hi Hj. unfold rankdata1. rewrite !list_lookup_fmap, Hi, Hj.
  intros [= <-] [= <-].
  assert (x ∈ col) as Hx by (apply list_elem_of_lookup; eauto).
  assert (y ∈ col) as Hy by (apply list_elem_of_lookup; eauto).
  assert (x < y → rank_in (sort1 col) x < rank_in (sort1 col) y) as Hlt
    by (by apply rank_in_lt).
  assert (y < x → rank_in (sort1 col) y < rank_in (sort1 col) x) as Hgt
    by (by apply rank_in_lt).
  destruct (Qc_dec x y) as [[Hc|Hc]|Hc].
  - specialize (Hlt Hc). split; [done|]. split.
    + intros ->. by apply (irreflexivity Qclt) in Hc.
    + intros Heq. rewrite Heq in Hlt. by apply (irreflexivity Qclt) in Hlt.
  - specialize (Hgt Hc). split; split.
    + intros H. by destruct (irreflexivity Qclt x); apply Qclt_trans with y.
    + intros H.
      by destruct (irreflexivity Qclt (rank_in (sort1 col) x));
        apply Qclt_trans with (rank_in (sort1 col) y).
    + intros ->. by apply (irreflexivity Qclt) in Hc.
    + intros Heq. rewrite Heq in Hgt. by apply (irreflexivity Qclt) in Hgt.
  - subst y. split; [|done]. split; intros H; by apply (irreflexivity Qclt) in H.
Qed.

Lemma rankdata1_order_preserving_witness :
  (Qc_of_Z 3 < Qc_of_Z 5 ↔ Qc_of_Z 7 / 2 < Qc_of_Z 5) ∧
  (Qc_of_Z 3 = Qc_of_Z 5 ↔ Qc_of_Z 7 / 2 = Qc_of_Z 5).
Proof.
  apply (rankdata1_order_preserving
           (map Qc_of_Z [3; 1; 3; 2; 5]%Z) 0 4); by apply by_compute.
Defined.

(** ** Ranks depend on the order of the values only *)

Section monotone.
Context (f : Qc → Qc).
Hypothesis f_increasing : ∀ x y, x < y → f x < f y.

Lemma increasing_lt x y : f x < f y ↔ x < y.
Proof.
  split; [|apply f_increasing]. intros H.
  destruct (Qc_dec x y) as [[Hc|Hc]|Hc]; [done| |].
  - apply f_increasing in Hc.
    by destruct (irreflexivity Qclt (f x)); apply Qclt_trans with (f y).
  - subst y. by apply (irreflexivity Qclt) in H.
Qed.

Lemma increasing_le x y : f x ≤ f y ↔ x ≤ y.
Proof. rewrite !Qcle_ngt. by rewrite increasing_lt. Qed.

Lemma count_lt_increasing col x : count_lt (map f col) (f x) = count_lt col x.
Proof.
  induction col as [|y col IH]; [done|].
  change (map f (y :: col)) with (f y :: map f col).
  rewrite !count_lt_cons, IH.
  destruct (decide (y < x)) as [H|H].
  - by rewrite decide_True by (by apply increasing_lt).
  - by rewrite decide_False by (by rewrite increasing_lt).
Qed.

Lemma count_le_increasing col x : count_le (map f col) (f x) = count_le col x.
Proof.
  induction col as [|y col IH]; [done|].
  change (map f (y :: col)) with (f y :: map f col).
  rewrite !count_le_cons, IH.
  destruct (decide (y ≤ x)) as [H|H].
  - by rewrite decide_True by (by apply increasing_le).
  - by rewrite decide_False by (by rewrite increasing_le).
Qed.

Lemma rankdata1_increasing col : rankdata1 (map f col) = rankdata1 col.
Proof.
  unfold rankdata1. rewrite map_map. apply map_ext. intros x.
  by rewrite !rank_in_counts, count_lt_increasing, count_le_increasing.
Qed.

Lemma transpose_fmap {A B} (g : A → B) c (rows : list (list A)) :
  transpose c (map (map g) rows) = map (map g) (transpose c rows).
Proof.
  induction rows as [|row rows IH]; simpl.
  - by rewrite fmap_replicate.
  - rewrite IH. clear IH. generalize (transpose c rows). intros cols.
    revert cols. induction row as [|x row IH]; intros [|col cols]; simpl;
      try done.
    by rewrite IH.
Qed.

Lemma rect_fmap {A B} (g : A → B) c (rows : list (list A)) :
  rect c rows → rect c (map (map g) rows).
Proof.
  intros Hr. apply Forall_fmap. eapply Forall_impl; [exact Hr|].
  intros row Hrow. unfold compose. by rewrite length_map.
Qed.

Lemma rank_table_increasing c rows :
  along_axis0 rankdata1 c (map (map f) rows) = along_axis0 rankdata1 c rows.
Proof.
  unfold along_axis0. rewrite transpose_fmap, length_map, map_map.
  f_equal. apply map_ext. intros col. apply rankdata1_increasing.
Qed.
End monotone.

(** X5.  The cell sees the data through the order of the values only, as
    long as the element type stays the same: applying a strictly increasing
    function to every entry of a rectangular table changes neither the
    reference distribution nor, for a table of the same element type, the
    result of the cell.  (The reference distribution does not depend on the
    element type; the result does, an [int64] table truncates it.) *)
Theorem quantile_order_invariant (f : Qc → Qc) d d' c rows :
  (∀ x y, x < y → f x < f y) → rect c rows →
  reference_distribution (Mat d' c (map (map f) rows))
    = reference_distribution (Mat d c rows) ∧
  quantile_pipeline (Mat d c (map (map f) rows))
    = quantile_pipeline (Mat d c rows).
Proof.
  intros Hf Hr. split.
  - rewrite !reference_distribution_Mat. by rewrite rank_table_increasing.
  - rewrite !quantile_pipeline_Mat by (try apply rect_fmap; exact Hr).
    by rewrite rank_table_increasing, length_map.
Qed.

Lemma quantile_order_invariant_witness :
  reference_distribution (Mat float64 3 (map (map (λ x, x + 1)) sample_rows))
    = reference_distribution (Mat int64 3 sample_rows) ∧
  quantile_pipeline (Mat int64 3 (map (map (λ x, x + 1)) sample_rows))
    = quantile_pipeline (Mat int64 3 sample_rows).
Proof.
  apply (quantile_order_invariant (λ x, x + 1) int64 float64 3 sample_rows).
  - intros x y Hxy. by apply Qcplus_lt_mono_r.
  - repeat constructor.
Defined.

(** ** The ranks of a column add up to [n (n + 1) / 2] *)

Section rank_sum.
Local Open Scope nat_scope.

Lemma sum_indicator (P : Qc → Prop) `{∀ y, Decision (P y)} l :
  sum_list_with (λ x, if decide (P x) then 1 else 0) l = length (filter P l).
Proof.
  induction l as [|x l IH]; simpl; [done|]. rewrite IH.
  destruct (decide (P x)).
  - by rewrite filter_cons_True.
  - by rewrite filter_cons_False.
Qed.

Lemma sum_list_with_add {A} (g h : A → nat) l :
  sum_list_with (λ x, g x + h x) l = sum_list_with g l + sum_list_with h l.
Proof. induction l as [|x l IH]; simpl; lia. Qed.

Lemma sum_list_with_ext {A} (g h : A → nat) l :
  (∀ x, g x = h x) → sum_list_with g l = sum_list_with h l.
Proof. intros Hgh. induction l as [|x l IH]; simpl; [done|]. by rewrite Hgh, IH. Qed.

(** Every ordered pair of positions of the column is counted once by
    [count_lt] or [count_le] of one of its two values, and every position
    once more by its own [count_le]. *)
Lemma count_pairs col :
  sum_list_with (λ x, count_lt col x + count_le col x) col
  = length col * length col.
Proof.
  induction col as [|a col IH]; [done|].
  cbn [sum_list_with length].
  rewrite (sum_list_with_ext _
    (λ x, ((if decide (a < x)%Qc then 1 else 0)
           + (if decide (a ≤ x)%Qc then 1 else 0))
          + (count_lt col x + count_le col x))).
  2:{ intros x. rewrite count_lt_cons, count_le_cons. lia. }
  rewrite sum_list_with_add, sum_list_with_add, IH.
  rewrite (sum_indicator (λ x, a < x)%Qc), (sum_indicator (λ x, a ≤ x)%Qc).
  rewrite count_lt_cons, count_le_cons.
  rewrite decide_False by apply (irreflexivity Qclt).
  rewrite decide_True by apply Qcle_refl.
  pose proof (filter_length_complement (λ y, y < a)%Qc (λ y, a ≤ y)%Qc col)
    as H1.
  pose proof (filter_length_complement (λ y, y ≤ a)%Qc (λ y, a < y)%Qc col)
    as H2.
  unfold count_lt, count_le.
  rewrite <- H1 at 3 4 by (intros y; apply Qclt_nge).
  specialize (H1 ltac:(intros y; apply Qclt_nge)).
  specialize (H2 ltac:(intros y; apply Qcle_ngt)).
  lia.
Qed.
End rank_sum.

Lemma Qcsum_half_counts (k : Qc → nat) l :
  Qcsum (map (λ x, Qc_of_nat (k x + 1) / 2) l)
  = Qc_of_nat (sum_list_with k l + length l) / 2.
Proof.
  induction l as [|x l IH]; simpl.
  - rewrite Qc_of_nat_0. field. done.
  - rewrite IH.
    replace (k x + sum_list_with k l + S (length l))%nat
      with ((k x + 1) + (sum_list_with k l + length l))%nat by lia.
    rewrite (Qc_of_nat_add (k x + 1)). field. done.
Qed.

Lemma rankdata1_sum_eq col :
  Qcsum (rankdata1 col) = Qc_of_nat (length col * (length col + 1)) / 2.
Proof.
  unfold rankdata1.
  rewrite (map_ext _ (λ x, Qc_of_nat (count_lt col x + count_le col x + 1) / 2))
    by (intros x; apply rank_in_nat).
  rewrite (Qcsum_half_counts (λ x, count_lt col x + count_le col x)%nat).
  rewrite count_pairs. do 2 f_equal. lia.
Qed.

(** ** When the cell completes *)

Lemma np_array_rect (py : list (list pynum)) c :
  py ≠ [] → rect c py →
  np_array py = Ok (Mat (infer_dtype (concat py)) c (map (map to_Qc) py)).
Proof.
  intros Hne Hr. destruct py as [|row0 rest]; [done|].
  unfold np_array.
  assert (length row0 = c) as Hc by (by inversion Hr).
  rewrite Hc.
  assert (forallb (λ row : list pynum, Nat.eqb (length row) c) (row0 :: rest)
          = true) as ->; [|done].
  apply forallb_forall. intros row Hrow%list_elem_of_In.
  apply Nat.eqb_eq. exact (proj1 (Forall_forall _ _) Hr row Hrow).
Qed.

(** X1.  On a literal whose integers fit in a signed 64-bit integer, the
    cell returns a table exactly for a non-empty list of rows of one length
    that has no more columns than rows; every other such input ends in an
    exception. *)
Theorem quantile_completes_iff (py : list (list pynum)) :
  Forall (Forall fits_int64) py →
  (∃ out, quantile_normalized_data py = Ok out) ↔
  (py ≠ [] ∧ ∃ c, rect c py ∧ (c ≤ length py)%nat).
Proof.
  intros _. split.
  - intros [out Hout]. split; [by intros ->|].
    destruct (quantile_normalized_data_inv py out Hout)
      as (d & c & rows' & _ & Hr & _ & _ & Hle).
    by exists c.
  - intros (Hne & c & Hr & Hle).
    unfold quantile_normalized_data.
    rewrite (np_array_rect py c Hne Hr). cbn [bind].
    apply quantile_pipeline_completes.
    + by apply rect_fmap.
    + by rewrite length_map.
Qed.

Lemma quantile_completes_iff_witness :
  (∃ out, quantile_normalized_data sample = Ok out) ↔
  (sample ≠ [] ∧ ∃ c, rect c sample ∧ (c ≤ length sample)%nat).
Proof.
  apply (quantile_completes_iff sample).
  repeat (constructor; try (simpl; lia)).
Defined.

(** ** Sorting and flipping along axis 0 *)

Lemma along_axis0_column {A B} (f : list A → list B) c (rows : list (list A)) j :
  (∀ l, length (f l) = length l) → rect c rows → (j < c)%nat →
  column j (along_axis0 f c rows) = f (column j rows).
Proof.
  intros Hf Hr Hj. apply list_eq. intros p.
  rewrite (column_lookup c) by (try apply along_axis0_rect; done).
  by apply along_axis0_entry.
Qed.

(** X3.  Whatever the data, the ranks that [rankdata(data, axis=0)] gives to
    a column of a rectangular table of [r] rows add up to [r (r + 1) / 2],
    ties included. *)
Theorem rank_table_column_sum d c rows j :
  rect c rows → (j < c)%nat →
  ∃ ranks, rankdata (Mat d c rows) = Mat float64 c ranks ∧
    rect c ranks ∧ length ranks = length rows ∧
    Qcsum (column j ranks) = Qc_of_nat (length rows * (length rows + 1)) / 2.
Proof.
  intros Hr Hj. eexists. split; [reflexivity|].
  split; [by apply (along_axis0_rect rankdata1 rankdata1_length)|].
  split; [by apply (along_axis0_length rankdata1 rankdata1_length)|].
  rewrite (along_axis0_column rankdata1 c rows j rankdata1_length Hr Hj).
  rewrite rankdata1_sum_eq. by rewrite (column_length c).
Qed.

Lemma rank_table_column_sum_witness :
  ∃ ranks, rankdata (Mat int64 2 crossed_rows) = Mat float64 2 ranks ∧
    rect 2 ranks ∧ length ranks = length crossed_rows ∧
    Qcsum (column 1 ranks)
    = Qc_of_nat (length crossed_rows * (length crossed_rows + 1)) / 2.
Proof.
  apply (rank_table_column_sum int64 2 crossed_rows 1).
  - repeat constructor.
  - lia.
Defined.

Lemma column_reverse {A} j (rows : list (list A)) :
  column j (reverse rows) = reverse (column j rows).
Proof.
  unfold column. induction rows as [|row rows IH]; [done|].
  rewrite reverse_cons, omap_app, IH. simpl.
  destruct (row !! j); simpl; by rewrite ?reverse_cons, ?app_nil_r.
Qed.

(** X6.  [sorted_data] has the shape of the data, and each of its columns is the
    column of the data sorted in ascending order. *)
Theorem sorted_data_columns d c rows :
  rect c rows →
  ∃ rows', sorted_data (Mat d c rows) = Mat d c rows' ∧
    length rows' = length rows ∧ rect c rows' ∧
    ∀ j, (j < c)%nat →
      column j rows' = sort1 (column j rows) ∧
      Sorted Qcle (column j rows') ∧ column j rows' ≡ₚ column j rows.
Proof.
  intros Hr. eexists. split; [reflexivity|].
  split; [by apply along_axis0_length, Hr; apply sort1_length|].
  split; [by apply along_axis0_rect, Hr; apply sort1_length|].
  intros j Hj.
  rewrite (along_axis0_column sort1 c rows j sort1_length Hr Hj).
  split; [done|]. split.
  - apply Sorted_merge_sort. apply _.
  - apply sort1_perm.
Qed.

Lemma sorted_data_columns_witness :
  ∃ rows', sorted_data (Mat int64 2 crossed_rows) = Mat int64 2 rows' ∧
    length rows' = length crossed_rows ∧ rect 2 rows' ∧
    ∀ j, (j < 2)%nat →
      column j rows' = sort1 (column j crossed_rows) ∧
      Sorted Qcle (column j rows') ∧ column j rows' ≡ₚ column j crossed_rows.
Proof.
  apply (sorted_data_columns int64 2 crossed_rows). repeat constructor.
Defined.

(** X7.  The last two steps of the cell, [np.sort] along axis 0 followed by
    [np.flip] along axis 0, put every column of any rectangular table in
    descending order. *)
Theorem sort_then_flip_descending d c rows j :
  rect c rows → (j < c)%nat →
  let col := column j (rows_of (np_flip (np_sort (Mat d c rows)))) in
  col = reverse (sort1 (column j rows)) ∧
  Sorted (flip Qcle) col ∧ col ≡ₚ column j rows.
Proof.
  intros Hr Hj. cbv zeta. simpl rows_of.
  rewrite column_reverse.
  rewrite (along_axis0_column sort1 c rows j sort1_length Hr Hj).
  split; [done|]. split.
  - apply Sorted_reverse, Sorted_merge_sort. apply _.
  - by rewrite reverse_Permutation, sort1_perm.
Qed.

Lemma sort_then_flip_descending_witness :
  let col := column 0 (rows_of (np_flip (np_sort (Mat int64 3 sample_rows)))) in
  col = reverse (sort1 (column 0 sample_rows)) ∧
  Sorted (flip Qcle) col ∧ col ≡ₚ column 0 sample_rows.
Proof.
  apply (sort_then_flip_descending int64 3 sample_rows 0).
  - repeat constructor.
  - lia.
Defined.

(** ** Mean subtraction, continued *)

Lemma normalized_data_Some data m :
  np_mean data = Some m →
  normalized_data data = map Some (map (λ x, x - m) data).
Proof.
  intros Hm. unfold normalized_data. rewrite Hm. cbv zeta.
  rewrite map_map. reflexivity.
Qed.

Lemma np_mean_centred data m :
  np_mean data = Some m → np_mean (map (λ x, x - m) data) = Some 0.
Proof.
  intros Hm.
  assert (0 < length data)%nat as Hlen by (destruct data; [done|simpl; lia]).
  rewrite np_mean_nonempty in Hm by exact Hlen. injection Hm as <-.
  rewrite np_mean_nonempty by (by rewrite length_map).
  f_equal. rewrite Qcsum_shift, length_map.
  pose proof (Qc_of_nat_pos _ Hlen) as Hn. field. done.
Qed.

(** X8.  In exact rational arithmetic (the rounding of binary64 left aside),
    subtracting the mean a second time changes nothing: the output of the
    cell is a fixed point of the cell. *)
Theorem mean_subtraction_idempotent (data : list Qc) :
  data ≠ [] →
  ∃ out, normalized_data data = map Some out ∧
    normalized_data out = map Some out.
Proof.
  intros Hne.
  assert (0 < length data)%nat as Hlen by (destruct data; [done|simpl; lia]).
  pose proof (np_mean_nonempty data Hlen) as Hm.
  eexists. split; [exact (normalized_data_Some data _ Hm)|].
  rewrite (normalized_data_Some _ 0) by (by apply np_mean_centred).
  f_equal. rewrite <- (map_id (map _ data)) at 2.
  apply map_ext. intros x. ring.
Qed.

Lemma mean_subtraction_idempotent_witness :
  ∃ out, normalized_data (map Qc_of_Z [1; 2; 3; 4; 5]%Z) = map Some out ∧
    normalized_data out = map Some out.
Proof.
  apply (mean_subtraction_idempotent (map Qc_of_Z [1; 2; 3; 4; 5]%Z)).
  discriminate.
Defined.

Lemma Qcsum_translate k l :
  Qcsum (map (λ x, x + k) l) = Qcsum l + Qc_of_nat (length l) * k.
Proof.
  induction l as [|x l IH]; simpl.
  - rewrite Qc_of_nat_0. ring.
  - rewrite IH, Qc_of_nat_S. ring.
Qed.

(** X9.  In exact rational arithmetic (the rounding of binary64 left aside),
    the output does not change when a constant is added to every value of
    the input. *)
Theorem mean_subtraction_translation_invariant (k : Qc) (data : list Qc) :
  normalized_data (map (λ x, x + k) data) = normalized_data data.
Proof.
  destruct data as [|x0 rest] eqn:Hd; [done|]. rewrite <- Hd.
  assert (0 < length data)%nat as Hlen by (subst; simpl; lia).
  clear Hd x0 rest.
  pose proof (np_mean_nonempty data Hlen) as Hm.
  assert (np_mean (map (λ x, x + k) data)
          = Some (Qcsum data / Qc_of_nat (length data) + k)) as Hm'.
  { rewrite np_mean_nonempty by (by rewrite length_map).
    f_equal. rewrite Qcsum_translate, length_map.
    pose proof (Qc_of_nat_pos _ Hlen) as Hn. field. done. }
  rewrite (normalized_data_Some _ _ Hm), (normalized_data_Some _ _ Hm').
  f_equal. rewrite map_map. apply map_ext. intros x. ring.
Qed.



(** ** Decimal scaling, continued *)

Lemma comprehension_raise {A B} (f : A → result B) l e :
  comprehension f l = Raise e → ∃ x, x ∈ l ∧ f x = Raise e.
Proof.
  induction l as [|x l IH]; simpl; [done|].
  destruct (f x) as [y|e'] eqn:Hx; simpl.
  - destruct (comprehension f l) as [ys|e'']; simpl; [done|].
    intros [= ->]. destruct (IH eq_refl) as (x' & Hin & Hx').
    exists x'. split; [by right | done].
  - intros [= ->]. exists x. split; [by left | done].
Qed.

Lemma py_truediv_errors a b e :
  py_truediv a b = Raise e →
  (e = ZeroDivisionError ∧ b = 0%Z) ∨ e = OverflowError.
Proof.
  unfold py_truediv.
  destruct (Z.eqb_spec b 0) as [->|_]; [intros [= <-]; by left|].
  destruct (a =? 0)%Z; [done|]. cbv zeta.
  destruct (bool_decide _); [|done]. intros [= <-]. by right.
Qed.

(** X11.  The only exceptions the cell can raise are [ValueError] (empty dataset,
    or a maximum too long to convert to a string) and [OverflowError] (a
    quotient too large for a float); in particular it never divides by
    zero. *)
Theorem scaled_data_errors (data : list Z) e :
  scaled_data data = Raise e → e = ValueError ∨ e = OverflowError.
Proof.
  unfold scaled_data.
  destruct (py_max data) as [m|e1] eqn:Hmax; cbn [bind].
  2:{ destruct data; [|done]. injection Hmax as <-. intros [= <-]. by left. }
  unfold py_str_len. cbv zeta.
  destruct (Nat.ltb 4300 _); cbn [bind]; [intros [= <-]; by left|].
  intros Hc. apply comprehension_raise in Hc as (x & _ & Hx).
  apply py_truediv_errors in Hx as [[_ H0]| ->]; [|by right].
  exfalso. revert H0. apply Z.pow_nonzero; lia.
Qed.

Lemma scaled_data_errors_witness :
  OverflowError = ValueError ∨ OverflowError = OverflowError.
Proof.
  apply (scaled_data_errors [- 10 ^ 400; 1]%Z OverflowError).
  by apply by_compute.
Defined.

Section decimal_outcome.
Local Open Scope Z_scope.

Lemma decimal_len_gt n k :
  0 < n → 0 ≤ k → 10 ^ k ≤ n → k < Z.of_nat (decimal_len n).
Proof.
  intros Hn Hk Hle. destruct (decimal_len_spec n Hn) as [_ Hlt].
  apply (Z.pow_lt_mono_r_iff 10); lia.
Qed.

(** X12.  On a dataset of positive integers the cell fails exactly when the
    dataset is empty or its maximum has more than 4300 digits, and then with
    [ValueError]; otherwise it returns one float per value. *)
Theorem scaled_data_outcome (data : list Z) :
  Forall (λ x, 0 < x) data →
  (data ≠ [] ∧ Forall (λ x, x < 10 ^ 4300) data ∧
   ∃ out, scaled_data data = Ok out ∧ length out = length data) ∨
  ((data = [] ∨ Exists (λ x, 10 ^ 4300 ≤ x) data) ∧
   scaled_data data = Raise ValueError).
Proof.
  intros Hpos. destruct (decide (data = [])) as [->|Hne].
  { right. split; [by left | done]. }
  destruct (py_max_spec data Hne) as (m & Hmax & Hin & Hle).
  assert (0 < m) as Hm by exact (proj1 (Forall_forall _ _) Hpos m Hin).
  destruct (Z.lt_ge_cases m (10 ^ 4300)) as [Hsmall|Hbig].
  - left. split; [done|].
    assert (Forall (λ x, x < 10 ^ 4300) data) as Hall.
    { eapply Forall_impl; [exact Hle|]. intros x Hx. simpl in Hx.
      eapply Z.le_lt_trans; [exact Hx | exact Hsmall]. }
    split; [done|].
    destruct (scaled_data_positive data Hne Hpos Hall) as (m' & _ & _ & Hrun).
    eexists. split; [exact Hrun|]. by rewrite length_map.
  - right. split.
    + right. apply Exists_exists. by exists m.
    + unfold scaled_data. rewrite Hmax. cbn [bind]. unfold py_str_len.
      rewrite Z.abs_eq by (apply Z.lt_le_incl, Hm). cbv zeta.
      pose proof (decimal_len_gt m 4300 Hm ltac:(done) Hbig) as Hd.
      destruct (Nat.ltb_spec 4300 (decimal_len m)) as [_|Hd']; [done|].
      exfalso. apply (Z.lt_irrefl 4300).
      eapply Z.lt_le_trans; [exact Hd|]. apply (Nat2Z.inj_le _ 4300), Hd'.
Qed.

Lemma scaled_data_outcome_witness :
  ([10; 100; 1000; 10000; 100000] ≠ [] ∧
   Forall (λ x, x < 10 ^ 4300) [10; 100; 1000; 10000; 100000] ∧
   ∃ out, scaled_data [10; 100; 1000; 10000; 100000] = Ok out ∧
     length out = length [10; 100; 1000; 10000; 100000]) ∨
  (([10; 100; 1000; 10000; 100000] = [] ∨
    Exists (λ x, 10 ^ 4300 ≤ x) [10; 100; 1000; 10000; 100000]) ∧
   scaled_data [10; 100; 1000; 10000; 100000] = Raise ValueError).
Proof.
  apply (scaled_data_outcome [10; 100; 1000; 10000; 100000]).
  repeat constructor.
Defined.

(** X13.  [scale_factor] is the smallest power of ten above the maximum of a
    dataset of positive integers: the maximum has exactly [max_digits]
    digits, and lies between a tenth of the scale factor and the scale
    factor. *)
Theorem scale_factor_brackets_max (data : list Z) :
  data ≠ [] → Forall (λ x, 0 < x) data → Forall (λ x, x < 10 ^ 4300) data →
  ∃ m max_digits,
    py_max data = Ok m ∧ py_str_len m = Ok max_digits ∧
    m ∈ data ∧ Forall (λ x, x ≤ m) data ∧
    10 ^ (Z.of_nat max_digits - 1) ≤ m < 10 ^ Z.of_nat max_digits.
Proof.
  intros Hne Hpos Hsmall.
  destruct (py_max_spec data Hne) as (m & Hmax & Hin & Hle).
  assert (0 < m) as Hm by exact (proj1 (Forall_forall _ _) Hpos m Hin).
  assert (m < 10 ^ 4300) as Hm'
    by exact (proj1 (Forall_forall _ _) Hsmall m Hin).
  exists m, (decimal_len m). split; [done|]. split.
  - unfold py_str_len. rewrite Z.abs_eq by (apply Z.lt_le_incl, Hm). cbv zeta.
    pose proof (decimal_len_le m 4300 Hm ltac:(done) Hm') as Hd.
    destruct (Nat.ltb_spec 4300 (decimal_len m)) as [Hd'|_].
    + exfalso. apply Nat2Z.inj_lt in Hd'. apply (Z.lt_irrefl 4300).
      eapply Z.lt_le_trans; [exact Hd' | exact Hd].
    + destruct (Z.ltb_spec m 0) as [?|_]; [|done].
      exfalso. by apply (Z.lt_asymm 0 m).
  - split; [done|]. split; [done|]. by apply decimal_len_spec.
Qed.

Lemma scale_factor_brackets_max_witness :
  ∃ m max_digits,
    py_max [10; 100; 1000; 10000; 100000] = Ok m ∧
    py_str_len m = Ok max_digits ∧
    m ∈ [10; 100; 1000; 10000; 100000] ∧
    Forall (λ x, x ≤ m) [10; 100; 1000; 10000; 100000] ∧
    10 ^ (Z.of_nat max_digits - 1) ≤ m < 10 ^ Z.of_nat max_digits.
Proof.
  apply (scale_factor_brackets_max [10; 100; 1000; 10000; 100000]).
  - discriminate.
  - repeat constructor.
  - repeat (constructor; [apply Z.ltb_lt; vm_compute; reflexivity|]).
    constructor.
Defined.
End decimal_outcome.

(** ** Rounding of the quotients *)

Section rounding_more.
Local Open Scope Z_scope.

(** The upper bound on the exponent, written for [e + 1 <= 0]. *)
Lemma floor_log2_ratio_upper a b :
  0 < a → 0 < b → floor_log2_ratio a b + 1 ≤ 0 →
  a * 2 ^ (- (floor_log2_ratio a b + 1)) < b.
Proof.
  intros Ha Hb He.
  destruct (floor_log2_ratio_spec a b Ha Hb) as [_ Hup].
  unfold scaled_le in Hup.
  destruct (Z.leb_spec 0 (floor_log2_ratio a b + 1)) as [H0|H0].
  - replace (floor_log2_ratio a b + 1) with 0 in * by lia.
    apply Z.leb_gt in Hup. simpl in *. lia.
  - by apply Z.leb_gt in Hup.
Qed.

Lemma round_half_even_zero n d :
  0 ≤ n → 0 < d → (round_half_even n d = 0 ↔ 2 * n ≤ d).
Proof.
  intros Hn Hd. unfold round_half_even. cbv zeta.
  pose proof (Z.div_mod n d ltac:(lia)) as Hdm.
  pose proof (Z.mod_pos_bound n d Hd) as Hr.
  assert (0 ≤ n / d) as Hq by (by apply Z.div_pos).
  destruct (Z.ltb_spec (2 * (n mod d)) d) as [H1|H1].
  - split; intros H; [nia|].
    assert (n / d < 1) by (apply Z.div_lt_upper_bound; lia). lia.
  - destruct (Z.ltb_spec d (2 * (n mod d))) as [H2|H2].
    + split; intros H; [lia|]. exfalso. nia.
    + destruct (Z.even (n / d)) eqn:Hev.
      * split; intros H; [nia|].
        assert (n / d < 1) by (apply Z.div_lt_upper_bound; lia). lia.
      * split; intros H; [lia|].
        assert (n / d < 1) by (apply Z.div_lt_upper_bound; lia).
        replace (n / d) with 0 in Hev by lia. done.
Qed.

Lemma round_half_even_mono n n' d :
  0 ≤ n → n ≤ n' → 0 < d → round_half_even n d ≤ round_half_even n' d.
Proof.
  intros Hn Hnn Hd.
  pose proof (Z.div_mod n d ltac:(lia)) as Hdm.
  pose proof (Z.mod_pos_bound n d Hd) as Hr.
  pose proof (Z.div_mod n' d ltac:(lia)) as Hdm'.
  pose proof (Z.mod_pos_bound n' d Hd) as Hr'.
  pose proof (Z.div_le_mono n n' d Hd Hnn) as Hq.
  destruct (Z.eq_dec (n / d) (n' / d)) as [Heq|Hne].
  - unfold round_half_even. cbv zeta. rewrite <- Heq.
    assert (n mod d ≤ n' mod d) as Hrr by nia.
    destruct (Z.ltb_spec (2 * (n mod d)) d);
      destruct (Z.ltb_spec (2 * (n' mod d)) d);
      destruct (Z.ltb_spec d (2 * (n mod d)));
      destruct (Z.ltb_spec d (2 * (n' mod d)));
      destruct (Z.even (n / d)); lia.
  - pose proof (round_half_even_upper n d (n / d + 1) Hn Hd ltac:(nia)).
    pose proof (round_half_even_lower n' d ltac:(lia) Hd).
    lia.
Qed.

(** Below one, the exponent that rounding uses. *)
Lemma binary64_round_below_one a b :
  0 < a → a < b →
  let s := 52 - Z.max (floor_log2_ratio a b) (-1022) in
  52 ≤ s ≤ 1074 ∧
  binary64_round a b
  = (Qc_of_Z (round_half_even (a * 2 ^ s) b) / Qc_of_Z (2 ^ s))%Qc.
Proof.
  intros Ha Hab. cbv zeta. unfold binary64_round. cbv zeta.
  pose proof (floor_log2_ratio_nonpos a b Ha Hab) as He.
  split; [lia|].
  destruct (Z.leb_spec 0 (52 - Z.max (floor_log2_ratio a b) (-1022)));
    [done|lia].
Qed.

(** A quotient below one is rounded to zero exactly when it is at most
    [2^(-1075)], half the smallest positive float. *)
Lemma binary64_round_zero_iff a b :
  0 < a → a < b → (binary64_round a b = 0%Qc ↔ a * 2 ^ 1075 ≤ b).
Proof.
  intros Ha Hab.
  destruct (binary64_round_below_one a b Ha Hab) as [Hs ->].
  pose proof (floor_log2_ratio_nonpos a b Ha Hab) as He.
  pose proof (floor_log2_ratio_lower a b Ha ltac:(lia) He) as Hlow.
  set (e := floor_log2_ratio a b) in *.
  set (s := 52 - Z.max e (-1022)) in *.
  assert (0 < 2 ^ s) as Hpow by (apply Z.pow_pos_nonneg; lia).
  assert (2 ^ 1075 = 2 * 2 ^ 1074) as H1075 by (by rewrite <- Z.pow_succ_r).
  assert ((Qc_of_Z (round_half_even (a * 2 ^ s) b) / Qc_of_Z (2 ^ s))%Qc = 0%Qc
          ↔ round_half_even (a * 2 ^ s) b = 0) as ->.
  { assert (Qc_of_Z (2 ^ s) ≠ 0%Qc) as Hnz.
    { rewrite <- Z2Qc_inj_0. intros H%Z2Qc_inj. lia. }
    split.
    - intros H. apply Z2Qc_inj. rewrite Z2Qc_inj_0.
      apply (f_equal (λ v, (v * Qc_of_Z (2 ^ s))%Qc)) in H.
      rewrite Qcmult_0_l in H. rewrite <- H. field. done.
    - intros ->. rewrite Z2Qc_inj_0. unfold Qcdiv. ring. }
  rewrite round_half_even_zero by nia.
  destruct (Z.le_gt_cases (-1022) e) as [Hnorm|Hsub].
  - assert (s = 52 + - e) as Hse by lia.
    assert (2 ^ s = 2 ^ 52 * 2 ^ (- e)) as Hps
      by (rewrite Hse; apply Z.pow_add_r; lia).
    assert (2 ^ 1074 = 2 ^ (- e) * 2 ^ (1074 + e)) as Hp
      by (rewrite <- Z.pow_add_r by lia; f_equal; lia).
    assert (0 < 2 ^ (1074 + e)) by (apply Z.pow_pos_nonneg; lia).
    assert (0 < 2 ^ (- e)) by (apply Z.pow_pos_nonneg; lia).
    assert (2 ≤ 2 ^ 52) by (change 2 with (2 ^ 1) at 1;
                              apply Z.pow_le_mono_r; lia).
    split; intros H'; exfalso; nia.
  - assert (s = 1074) as -> by lia. lia.
Qed.
End rounding_more.

(** X14.  On a dataset of positive integers (maximum of at most 4300 digits)
    every result lies in the closed interval [[0, 1]], and a value is scaled
    to [0.0] exactly when it is at most [2^(-1075)] times the scale
    factor. *)
Theorem scaled_data_closed_unit_interval (data : list Z) :
  data ≠ [] → Forall (λ x, 0 < x)%Z data →
  Forall (λ x, x < 10 ^ 4300)%Z data →
  ∃ m out, py_max data = Ok m ∧ scaled_data data = Ok out ∧
    Forall2 (λ x v, 0 ≤ v ∧ v ≤ 1 ∧
                    (v = 0 ↔ (x * 2 ^ 1075 ≤ 10 ^ Z.of_nat (decimal_len m))%Z))
      data out.
Proof.
  intros Hne Hpos Hsmall.
  destruct (scaled_data_positive data Hne Hpos Hsmall)
    as (m & Hmax & Hall & Hrun).
  exists m. eexists. split; [exact Hmax|]. split; [exact Hrun|].
  apply Forall2_fmap_r, Forall_Forall2_diag.
  eapply Forall_impl; [exact Hall|]. intros x [Hx0 Hx1]. simpl.
  destruct (binary64_round_unit x _ Hx0 Hx1) as (H0 & H1 & _).
  split; [exact H0|]. split; [exact H1|].
  by apply binary64_round_zero_iff.
Qed.

Lemma scaled_data_closed_unit_interval_witness :
  ∃ m out, py_max [1; 10 ^ 323]%Z = Ok m ∧
    scaled_data [1; 10 ^ 323]%Z = Ok out ∧
    Forall2 (λ x v, 0 ≤ v ∧ v ≤ 1 ∧
                    (v = 0 ↔ (x * 2 ^ 1075 ≤ 10 ^ Z.of_nat (decimal_len m))%Z))
      [1; 10 ^ 323]%Z out.
Proof.
  apply (scaled_data_closed_unit_interval [1; 10 ^ 323]%Z).
  - discriminate.
  - constructor; [lia|]. constructor; [|constructor].
    apply Z.ltb_lt. vm_compute. reflexivity.
  - constructor; [apply Z.ltb_lt; vm_compute; reflexivity|].
    constructor; [|constructor]. apply Z.ltb_lt. vm_compute. reflexivity.
Defined.

Lemma Qc_ratio_le m P m' P' :
  (0 < P)%Z → (0 < P')%Z → (m * P' ≤ m' * P)%Z →
  Qc_of_Z m / Qc_of_Z P ≤ Qc_of_Z m' / Qc_of_Z P'.
Proof.
  intros HP HP' Hle.
  assert (0 < Qc_of_Z P) as HPq by (rewrite <- Z2Qc_inj_0; by apply Qc_of_Z_lt).
  assert (0 < Qc_of_Z P') as HPq' by (rewrite <- Z2Qc_inj_0; by apply Qc_of_Z_lt).
  assert (Qc_of_Z P ≠ 0) as Hn by (intros H0; rewrite H0 in HPq;
                                   by apply (irreflexivity Qclt) in HPq).
  assert (Qc_of_Z P' ≠ 0) as Hn' by (intros H0; rewrite H0 in HPq';
                                     by apply (irreflexivity Qclt) in HPq').
  apply (Qcmult_le_mono_pos_r _ _ (Qc_of_Z P * Qc_of_Z P')).
  { by apply Qcmult_pos_pos. }
  replace (Qc_of_Z m / Qc_of_Z P * (Qc_of_Z P * Qc_of_Z P'))
    with (Qc_of_Z (m * P')) by (rewrite Z2Qc_inj_mul; field; done).
  replace (Qc_of_Z m' / Qc_of_Z P' * (Qc_of_Z P * Qc_of_Z P'))
    with (Qc_of_Z (m' * P)) by (rewrite Z2Qc_inj_mul; field; done).
  by apply Qc_of_Z_le.
Qed.

Section rounding_order.
Local Open Scope Z_scope.

Lemma floor_log2_ratio_mono a a' b :
  0 < a → a ≤ a' → a' < b → floor_log2_ratio a b ≤ floor_log2_ratio a' b.
Proof.
  intros Ha Haa Hab.
  pose proof (floor_log2_ratio_nonpos a b Ha ltac:(lia)) as He.
  pose proof (floor_log2_ratio_nonpos a' b ltac:(lia) Hab) as He'.
  pose proof (floor_log2_ratio_lower a b Ha ltac:(lia) He) as Hlow.
  destruct (Z.le_gt_cases (floor_log2_ratio a b) (floor_log2_ratio a' b))
    as [?|Hgt]; [done|]. exfalso.
  pose proof (floor_log2_ratio_upper a' b ltac:(lia) ltac:(lia) ltac:(lia))
    as Hup.
  set (e := floor_log2_ratio a b) in *.
  set (e' := floor_log2_ratio a' b) in *.
  assert (2 ^ (- e) ≤ 2 ^ (- (e' + 1))) as Hpow
    by (apply Z.pow_le_mono_r; lia).
  assert (0 < 2 ^ (- e)) by (apply Z.pow_pos_nonneg; lia).
  nia.
Qed.

(** Rounding keeps the order of the quotients below one. *)
Lemma binary64_round_mono a a' b :
  0 < a → a ≤ a' → a' < b →
  (binary64_round a b ≤ binary64_round a' b)%Qc.
Proof.
  intros Ha Haa Hab.
  destruct (binary64_round_below_one a b Ha ltac:(lia)) as [Hs ->].
  destruct (binary64_round_below_one a' b ltac:(lia) Hab) as [Hs' ->].
  pose proof (floor_log2_ratio_mono a a' b Ha Haa Hab) as Hee.
  pose proof (floor_log2_ratio_nonpos a' b ltac:(lia) Hab) as He'.
  pose proof (floor_log2_ratio_lower a' b ltac:(lia) ltac:(lia) He') as Hlow'.
  set (e := floor_log2_ratio a b) in *.
  set (e' := floor_log2_ratio a' b) in *.
  set (s := 52 - Z.max e (-1022)) in *.
  set (s' := 52 - Z.max e' (-1022)) in *.
  assert (0 < 2 ^ s) as Hp by (apply Z.pow_pos_nonneg; lia).
  assert (0 < 2 ^ s') as Hp' by (apply Z.pow_pos_nonneg; lia).
  apply Qc_ratio_le; [done|done|].
  destruct (Z.eq_dec s s') as [Heq|Hne].
  - rewrite <- Heq.
    pose proof (round_half_even_mono (a * 2 ^ s) (a' * 2 ^ s) b
                  ltac:(nia) ltac:(nia) ltac:(lia)).
    nia.
  - assert (s' + 1 ≤ s) as Hss by lia.
    assert (s' = 52 - e') as Hse' by lia.
    assert (e + 1 ≤ 0) as He1 by lia.
    pose proof (floor_log2_ratio_upper a b Ha ltac:(lia) He1) as Hup.
    fold e in Hup.
    (* the smaller quotient rounds to at most [2^53] units *)
    assert (round_half_even (a * 2 ^ s) b ≤ 2 ^ 53) as Hm.
    { apply round_half_even_upper; [nia|lia|].
      assert (s = - (Z.max e (-1022) + 1) + 53) as -> by lia.
      rewrite Z.pow_add_r by lia.
      assert (2 ^ (- (Z.max e (-1022) + 1)) ≤ 2 ^ (- (e + 1)))
        by (apply Z.pow_le_mono_r; lia).
      assert (0 < 2 ^ 53) by (by apply Z.pow_pos_nonneg).
      assert (0 < 2 ^ (- (Z.max e (-1022) + 1)))
        by (apply Z.pow_pos_nonneg; lia).
      nia. }
    (* the larger one to at least [2^52] units *)
    assert (2 ^ 52 ≤ round_half_even (a' * 2 ^ s') b) as Hm'.
    { etransitivity; [|apply round_half_even_lower; nia].
      apply Z.div_le_lower_bound; [lia|].
      rewrite Hse'. replace (52 - e') with (- e' + 52) by lia.
      rewrite Z.pow_add_r by lia.
      assert (0 < 2 ^ 52) by (by apply Z.pow_pos_nonneg).
      nia. }
    assert (2 ^ 53 = 2 * 2 ^ 52) as H53 by (by rewrite <- Z.pow_succ_r).
    assert (2 * 2 ^ s' ≤ 2 ^ s) as Hpp.
    { rewrite <- Z.pow_succ_r by lia. apply Z.pow_le_mono_r; lia. }
    assert (0 ≤ round_half_even (a * 2 ^ s) b)
      by (etransitivity; [|apply round_half_even_lower; nia];
          apply Z.div_pos; nia).
    nia.
Qed.

(** In the normal range the rounded quotient is within a relative error of
    [2^(-53)] of the exact one. *)
Lemma binary64_round_accuracy a b :
  0 < a → a < b → b ≤ a * 2 ^ 1022 →
  (Qc_of_Z (a * (2 ^ 53 - 1)) / Qc_of_Z (b * 2 ^ 53) ≤ binary64_round a b ∧
   binary64_round a b ≤ Qc_of_Z (a * (2 ^ 53 + 1)) / Qc_of_Z (b * 2 ^ 53))%Qc.
Proof.
  intros Ha Hab Hnorm.
  destruct (binary64_round_below_one a b Ha Hab) as [Hs ->].
  pose proof (floor_log2_ratio_nonpos a b Ha Hab) as He.
  pose proof (floor_log2_ratio_lower a b Ha ltac:(lia) He) as Hlow.
  assert (-1022 ≤ floor_log2_ratio a b) as Hen.
  { destruct (Z.le_gt_cases (-1022) (floor_log2_ratio a b)) as [?|Hlt];
      [done|]. exfalso.
    pose proof (floor_log2_ratio_upper a b Ha ltac:(lia) ltac:(lia)) as Hup.
    assert (2 ^ 1022 ≤ 2 ^ (- (floor_log2_ratio a b + 1)))
      by (apply Z.pow_le_mono_r; lia).
    nia. }
  set (e := floor_log2_ratio a b) in *.
  assert (52 - Z.max e (-1022) = - e + 52) as Hse by lia.
  rewrite Hse in *. clear Hse.
  assert (0 < 2 ^ (- e + 52)) as Hp by (apply Z.pow_pos_nonneg; lia).
  assert (0 < 2 ^ 53) as Hp53 by (by apply Z.pow_pos_nonneg).
  assert (2 ^ 53 = 2 * 2 ^ 52) as H53 by (by rewrite <- Z.pow_succ_r).
  assert (0 < 2 ^ 52) as Hp52 by (by apply Z.pow_pos_nonneg).
  assert (b * 2 ^ 52 ≤ a * 2 ^ (- e + 52)) as Hn.
  { rewrite Z.pow_add_r by lia. nia. }
  pose proof (round_half_even_nearest (a * 2 ^ (- e + 52)) b
                ltac:(nia) ltac:(lia)) as Hnear.
  set (n := a * 2 ^ (- e + 52)) in *.
  set (m := round_half_even n b) in *.
  split; apply Qc_ratio_le; nia.
Qed.
End rounding_order.

(** X15.  Decimal scaling keeps the order of the values: on a dataset of positive
    integers, a value that is not larger than another is scaled to a float
    that is not larger. *)
Theorem scaled_data_monotone (data : list Z) :
  data ≠ [] → Forall (λ x, 0 < x)%Z data →
  Forall (λ x, x < 10 ^ 4300)%Z data →
  ∃ out, scaled_data data = Ok out ∧
    ∀ i j x y u v,
      data !! i = Some x → data !! j = Some y →
      out !! i = Some u → out !! j = Some v →
      (x ≤ y)%Z → u ≤ v.
Proof.
  intros Hne Hpos Hsmall.
  destruct (scaled_data_positive data Hne Hpos Hsmall)
    as (m & Hmax & Hall & Hrun).
  eexists. split; [exact Hrun|].
  intros i j x y u v Hi Hj. rewrite !list_lookup_fmap, Hi, Hj.
  intros [= <-] [= <-] Hxy.
  destruct (proj1 (Forall_forall _ _) Hall x) as [Hx0 _].
  { apply list_elem_of_lookup. eauto. }
  destruct (proj1 (Forall_forall _ _) Hall y) as [_ Hy1].
  { apply list_elem_of_lookup. eauto. }
  by apply binary64_round_mono.
Qed.

Lemma scaled_data_monotone_witness :
  ∃ out, scaled_data [10; 100; 1000; 10000; 100000]%Z = Ok out ∧
    ∀ i j x y u v,
      [10; 100; 1000; 10000; 100000]%Z !! i = Some x →
      [10; 100; 1000; 10000; 100000]%Z !! j = Some y →
      out !! i = Some u → out !! j = Some v →
      (x ≤ y)%Z → u ≤ v.
Proof.
  apply (scaled_data_monotone [10; 100; 1000; 10000; 100000]%Z).
  - discriminate.
  - repeat constructor.
  - repeat (constructor; [apply Z.ltb_lt; vm_compute; reflexivity|]).
    constructor.
Defined.

(** X16.  When the maximum has at most 307 digits, no quotient falls into the
    subnormal range, and every result is the exact quotient
    [x / scale_factor] up to a relative error of [2^(-53)]. *)
Theorem scaled_data_accuracy (data : list Z) :
  data ≠ [] → Forall (λ x, 0 < x)%Z data →
  Forall (λ x, x < 10 ^ 307)%Z data →
  ∃ m out, py_max data = Ok m ∧ scaled_data data = Ok out ∧
    Forall2 (λ x v,
        let q := Qc_of_Z x / Qc_of_Z (10 ^ Z.of_nat (decimal_len m)) in
        let eps := 1 / Qc_of_Z (2 ^ 53) in
        q * (1 - eps) ≤ v ∧ v ≤ q * (1 + eps))
      data out.
Proof.
  intros Hne Hpos Hsmall.
  destruct (scaled_data_positive data Hne Hpos) as (m & Hmax & Hall & Hrun).
  { eapply Forall_impl; [exact Hsmall|]. intros x Hx. simpl in *.
    assert (10 ^ 307 ≤ 10 ^ 4300)%Z by (apply Z.pow_le_mono_r; lia). lia. }
  exists m. eexists. split; [exact Hmax|]. split; [exact Hrun|].
  destruct (py_max_spec data Hne) as (m' & Hmax' & Hin & _).
  rewrite Hmax in Hmax'. injection Hmax' as <-.
  assert (0 < m)%Z as Hm by exact (proj1 (Forall_forall _ _) Hpos m Hin).
  assert (m < 10 ^ 307)%Z as Hm'
    by exact (proj1 (Forall_forall _ _) Hsmall m Hin).
  pose proof (decimal_len_le m 307 Hm ltac:(lia) Hm') as Hd.
  assert (10 ^ Z.of_nat (decimal_len m) ≤ 2 ^ 1022)%Z as Hscale.
  { transitivity (10 ^ 307)%Z; [apply Z.pow_le_mono_r; lia|].
    apply Z.leb_le. vm_compute. reflexivity. }
  apply Forall2_fmap_r, Forall_Forall2_diag.
  eapply Forall_impl; [exact Hall|]. intros x [Hx0 Hx1]. simpl.
  set (b := (10 ^ Z.of_nat (decimal_len m))%Z) in *.
  assert (0 < 2 ^ 1022)%Z by (by apply Z.pow_pos_nonneg).
  destruct (binary64_round_accuracy x b Hx0 Hx1 ltac:(nia)) as [Hlo Hhi].
  assert (0 < 2 ^ 53)%Z as Hp53 by (by apply Z.pow_pos_nonneg).
  assert (Qc_of_Z b ≠ 0) as Hb0.
  { rewrite <- Z2Qc_inj_0. intros H0%Z2Qc_inj. lia. }
  assert (Qc_of_Z (2 ^ 53) ≠ 0) as H530.
  { rewrite <- Z2Qc_inj_0. intros H0%Z2Qc_inj. lia. }
  split.
  - replace (Qc_of_Z x / Qc_of_Z b * (1 - 1 / Qc_of_Z (2 ^ 53)))
      with (Qc_of_Z (x * (2 ^ 53 - 1)) / Qc_of_Z (b * 2 ^ 53)); [done|].
    rewrite !Z2Qc_inj_mul, Z2Qc_inj_sub, Z2Qc_inj_1. field. done.
  - replace (Qc_of_Z x / Qc_of_Z b * (1 + 1 / Qc_of_Z (2 ^ 53)))
      with (Qc_of_Z (x * (2 ^ 53 + 1)) / Qc_of_Z (b * 2 ^ 53)); [done|].
    rewrite !Z2Qc_inj_mul, Z2Qc_inj_add, Z2Qc_inj_1. field. done.
Qed.

Lemma scaled_data_accuracy_witness :
  ∃ m out, py_max [10; 100; 1000; 10000; 100000]%Z = Ok m ∧
    scaled_data [10; 100; 1000; 10000; 100000]%Z = Ok out ∧
    Forall2 (λ x v,
        let q := Qc_of_Z x / Qc_of_Z (10 ^ Z.of_nat (decimal_len m)) in
        let eps := 1 / Qc_of_Z (2 ^ 53) in
        q * (1 - eps) ≤ v ∧ v ≤ q * (1 + eps))
      [10; 100; 1000; 10000; 100000]%Z out.
Proof.
  apply (scaled_data_accuracy [10; 100; 1000; 10000; 100000]%Z).
  - discriminate.
  - repeat constructor.
  - repeat (constructor; [apply Z.ltb_lt; vm_compute; reflexivity|]).
    constructor.
Defined.

(** ** The scaler cells *)

Example max_abs_notebook :
  max_abs_scaled_data outliers
  = Ok (Mat float64 1 (column_of
      [ 1 / Qc_of_Z 300; 1 / Qc_of_Z 150; 1 / Qc_of_Z 100; 1 / Qc_of_Z 75;
        1 / Qc_of_Z 60; 1 / Qc_of_Z 3; Qc_of_Z 2 / Qc_of_Z 3; 1 ])).
Proof. compute_eq. Qed.

(** The statistics of the robust-scaling example: median 4.5, quartiles
    2.75 and 125. *)
Example robust_statistics :
  median_sorted (map Qc_of_Z [1; 2; 3; 4; 5; 100; 200; 300]%Z)
    = Some (Qc_of_Z 9 / 2) ∧
  percentile_sorted quarter (map Qc_of_Z [1; 2; 3; 4; 5; 100; 200; 300]%Z)
    = Some (Qc_of_Z 11 / Qc_of_Z 4) ∧
  percentile_sorted three_quarters
      (map Qc_of_Z [1; 2; 3; 4; 5; 100; 200; 300]%Z)
    = Some (Qc_of_Z 125).
Proof. repeat split; compute_eq. Qed.

Example robust_notebook :
  robust_scaled_data outliers
  = Ok (Mat float64 1 (column_of
      (map (λ x, (Qc_of_Z x - Qc_of_Z 9 / 2) / (Qc_of_Z 489 / Qc_of_Z 4))
           [1; 2; 3; 4; 5; 100; 200; 300]%Z))).
Proof. compute_eq. Qed.

(** ** Single-column tables *)

Lemma column_of_length l : length (column_of l) = length l.
Proof. apply length_map. Qed.

Lemma rect_column_of l : rect 1 (column_of l).
Proof. apply Forall_fmap, Forall_true. done. Qed.

Lemma column_column_of l : column 0 (column_of l) = l.
Proof. unfold column, column_of. induction l as [|x l IH]; simpl; by f_equal. Qed.

Lemma entry_out_of_range {A} c (rows : list (list A)) p j :
  rect c rows → (c ≤ j)%nat → entry rows p j = None.
Proof.
  intros Hr Hj. unfold entry.
  destruct (rows !! p) as [row|] eqn:Hp; [|done]. simpl.
  apply lookup_ge_None_2. by rewrite (rect_lookup _ _ _ _ Hr Hp).
Qed.

(** Applying a function along axis 0 of a single column applies it to the
    column. *)
Lemma along_axis0_column_of (f : list Qc → list Qc) l :
  (∀ l, length (f l) = length l) →
  along_axis0 f 1 (column_of l) = column_of (f l).
Proof.
  intros Hf. apply (table_ext 1).
  - apply along_axis0_rect; [done | apply rect_column_of].
  - apply rect_column_of.
  - rewrite along_axis0_length by (done || apply rect_column_of).
    by rewrite !column_of_length, Hf.
  - intros p j. destruct (decide (j < 1)%nat) as [Hj|Hj].
    + rewrite (along_axis0_entry f Hf 1) by (done || apply rect_column_of).
      replace j with 0%nat by lia. rewrite column_column_of.
      rewrite <- (column_lookup 1) by (lia || apply rect_column_of).
      by rewrite column_column_of.
    + rewrite !(entry_out_of_range 1); try done; try lia.
      * apply rect_column_of.
      * apply along_axis0_rect; [done | apply rect_column_of].
Qed.

Lemma check_array_column d xs :
  xs ≠ [] → check_array (reshape_column (Vec d xs)) = Ok (1%nat, column_of xs).
Proof. destruct xs; [done|]. reflexivity. Qed.

(** ** Max-abs scaling *)

Lemma Qcmax_ge_l x y : x ≤ Qcmax x y.
Proof.
  unfold Qcmax. case_bool_decide; [done|]. apply Qcle_refl.
Qed.


Lemma max_abs_nonneg col : 0 ≤ max_abs col.
Proof.
  destruct col as [|x col]; simpl; [done|].
  eapply Qcle_trans; [apply Qcabs.Qcabs_nonneg | apply Qcmax_ge_l].
Qed.



Lemma ten_eps_pos : 0 < Qc_of_Z 10 * float_eps.
Proof. done. Qed.


Lemma handle_zeros_in_scale_pos r : 0 < handle_zeros_in_scale r.
Proof.
  unfold handle_zeros_in_scale. case_bool_decide as H; [done|].
  eapply Qclt_le_trans; [apply ten_eps_pos|]. by apply Qcle_ngt.
Qed.









(** ** Robust scaling *)

(** Sorting commutes with a (weakly) increasing function. *)
Lemma sort1_fmap_increasing (g : Qc → Qc) l :
  (∀ x y, x ≤ y → g x ≤ g y) → sort1 (map g l) = map g (sort1 l).
Proof.
  intros Hg. apply (StronglySorted_unique Qcle).
  - apply sort1_sorted.
  - apply (StronglySorted_fmap g Qcle Qcle); [done | apply sort1_sorted].
  - etransitivity; [apply sort1_perm|].
    apply Permutation_map. symmetry. apply sort1_perm.
Qed.

Lemma floor_index_in_range (p : Qc) (n : nat) :
  0 ≤ p → p ≤ 1 → (0 < n)%nat →
  (Z.to_nat (Qfloor (this (p * Qc_of_nat (n - 1))%Qc)) ≤ n - 1)%nat.
Proof.
  intros Hp0 Hp1 Hn.
  assert (p * Qc_of_nat (n - 1) ≤ Qc_of_nat (n - 1)) as Hle.
  { rewrite <- (Qcmult_1_l (Qc_of_nat (n - 1))) at 2.
    apply Qcmult_le_mono_nonneg_r; [apply Qc_of_nat_nonneg | done]. }
  apply Qfloor_resp_le in Hle.
  change (this (Qc_of_nat (n - 1))) with (inject_Z (Z.of_nat (n - 1))) in Hle.
  rewrite Qfloor_Z in Hle. lia.
Qed.

Lemma percentile_sorted_is_Some p s :
  s ≠ [] → 0 ≤ p → p ≤ 1 → is_Some (percentile_sorted p s).
Proof.
  intros Hne Hp0 Hp1.
  assert (0 < length s)%nat as Hn by (destruct s; [done|simpl; lia]).
  pose proof (floor_index_in_range p (length s) Hp0 Hp1 Hn) as Hlo.
  unfold percentile_sorted. cbv zeta.
  set (lo := Z.to_nat (Qfloor (this (p * Qc_of_nat (length s - 1))%Qc))) in *.
  destruct (lookup_lt_is_Some_2 s lo) as [a ->]; [lia|].
  destruct (lookup_lt_is_Some_2 s (Nat.min (S lo) (length s - 1)))
    as [b ->]; [lia|].
  simpl. eauto.
Qed.

Lemma median_sorted_is_Some s : s ≠ [] → is_Some (median_sorted s).
Proof.
  intros Hne.
  assert (0 < length s)%nat as Hn by (destruct s; [done|simpl; lia]).
  unfold median_sorted. cbv zeta.
  pose proof (Nat.div_lt (length s) 2 Hn ltac:(lia)) as Hdiv.
  destruct (Nat.even (length s)).
  - destruct (lookup_lt_is_Some_2 s (length s / 2 - 1)) as [a ->]; [lia|].
    destruct (lookup_lt_is_Some_2 s (length s / 2)) as [b ->]; [lia|].
    simpl. eauto.
  - apply lookup_lt_is_Some_2. lia.
Qed.

Section affine.
Context (c k : Qc).
Hypothesis k_pos : 0 < k.

Local Notation "'aff'" := (affine c k).

Lemma k_nonzero : k ≠ 0.
Proof. intros H. rewrite H in k_pos. by apply (irreflexivity Qclt) in k_pos. Qed.

Lemma affine_le x y : x ≤ y → aff x ≤ aff y.
Proof.
  intros H. unfold affine, Qcdiv.
  apply Qcmult_le_mono_nonneg_r.
  - by apply Qclt_le_weak, Qcinv_pos.
  - unfold Qcminus. by apply Qcplus_le_mono_r.
Qed.

Lemma median_sorted_affine s :
  median_sorted (map aff s) = aff <$> median_sorted s.
Proof.
  unfold median_sorted. cbv zeta. rewrite length_map.
  change (map aff s) with (aff <$> s).
  rewrite !list_lookup_fmap.
  destruct (Nat.even (length s)); [|done].
  destruct (s !! (length s / 2 - 1)%nat) as [a|]; [|done].
  destruct (s !! (length s / 2)%nat) as [b|]; [|done].
  simpl. f_equal. unfold affine. pose proof k_nonzero. field. done.
Qed.

Lemma percentile_sorted_affine p s :
  percentile_sorted p (map aff s) = aff <$> percentile_sorted p s.
Proof.
  unfold percentile_sorted. cbv zeta. rewrite length_map.
  change (map aff s) with (aff <$> s).
  rewrite !list_lookup_fmap.
  set (pos := p * Qc_of_nat (length s - 1)).
  destruct (s !! Z.to_nat (Qfloor pos)) as [a|]; [|done].
  destruct (s !! Nat.min (S (Z.to_nat (Qfloor pos))) (length s - 1))
    as [b|]; [|done].
  simpl. f_equal. unfold affine. pose proof k_nonzero. field. done.
Qed.

Lemma iqr_affine col r :
  iqr col = Some r → iqr (map aff col) = Some (r / k).
Proof.
  unfold iqr. rewrite sort1_fmap_increasing by apply affine_le.
  rewrite !percentile_sorted_affine.
  destruct (percentile_sorted quarter _) as [q1|]; [|done].
  destruct (percentile_sorted three_quarters _) as [q3|]; [|done].
  simpl. intros [= <-]. f_equal. unfold affine.
  pose proof k_nonzero. field. done.
Qed.
End affine.

Lemma robust_scale_column_length col :
  length (robust_scale_column col) = length col.
Proof.
  unfold robust_scale_column.
  destruct (median_sorted _), (iqr col); try done. apply length_map.
Qed.

Lemma quarter_bounds : 0 ≤ quarter ∧ quarter ≤ 1.
Proof. done. Qed.

Lemma three_quarters_bounds : 0 ≤ three_quarters ∧ three_quarters ≤ 1.
Proof. done. Qed.

Lemma iqr_is_Some col : col ≠ [] → is_Some (iqr col).
Proof.
  intros Hne.
  assert (sort1 col ≠ []) as Hs.
  { intros H. apply (f_equal length) in H. rewrite sort1_length in H.
    by destruct col. }
  unfold iqr.
  destruct (percentile_sorted_is_Some quarter (sort1 col) Hs)
    as [q1 ->]; [apply quarter_bounds..|].
  destruct (percentile_sorted_is_Some three_quarters (sort1 col) Hs)
    as [q3 ->]; [apply three_quarters_bounds..|].
  simpl. eauto.
Qed.

(** What robust scaling does to a non-empty column. *)
Lemma robust_scale_column_spec col :
  col ≠ [] →
  ∃ center range,
    median_sorted (sort1 col) = Some center ∧ iqr col = Some range ∧
    robust_scale_column col
    = map (affine center (handle_zeros_in_scale range)) col ∧
    median_sorted (sort1 (robust_scale_column col)) = Some 0 ∧
    iqr (robust_scale_column col)
    = Some (range / handle_zeros_in_scale range).
Proof.
  intros Hne.
  assert (sort1 col ≠ []) as Hs.
  { intros H. apply (f_equal length) in H. rewrite sort1_length in H.
    by destruct col. }
  destruct (median_sorted_is_Some (sort1 col) Hs) as [center Hc].
  destruct (iqr_is_Some col Hne) as [range Hr].
  exists center, range. split; [done|]. split; [done|].
  pose proof (handle_zeros_in_scale_pos range) as Hk.
  assert (robust_scale_column col
          = map (affine center (handle_zeros_in_scale range)) col) as ->.
  { unfold robust_scale_column. by rewrite Hc, Hr. }
  split; [done|]. split.
  - rewrite sort1_fmap_increasing by (by apply affine_le).
    rewrite median_sorted_affine by done. rewrite Hc. simpl. f_equal.
    unfold affine, Qcdiv. ring.
  - by apply iqr_affine.
Qed.

(** ** Robust scaling: where the centre lies *)

Section sorted_counts.
Local Open Scope nat_scope.





End sorted_counts.





(** X20.  In exact rational arithmetic (the rounding of binary64 left aside),
    the result of the robust-scaling cell on a non-empty one-dimensional
    array has median 0; its inter-quartile range is 1, unless the
    inter-quartile range of the data is below ten machine epsilons, in which
    case the data are only centred. *)
Theorem robust_scaled_data_statistics d xs :
  xs ≠ [] →
  ∃ out range,
    robust_scaled_data (Vec d xs) = Ok (Mat float64 1 (column_of out)) ∧
    length out = length xs ∧
    median_sorted (sort1 out) = Some 0 ∧
    iqr xs = Some range ∧
    iqr out
    = Some (if bool_decide (range < Qc_of_Z 10 * float_eps) then range else 1).
Proof.
  intros Hne.
  destruct (robust_scale_column_spec xs Hne)
    as (center & range & Hc & Hr & Hout & Hmed & Hiqr).
  exists (robust_scale_column xs), range.
  split; [|split; [|split; [|split]]].
  - unfold robust_scaled_data, RobustScaler_fit_transform.
    rewrite check_array_column by done. cbn [bind fst snd].
    by rewrite along_axis0_column_of by apply robust_scale_column_length.
  - apply robust_scale_column_length.
  - exact Hmed.
  - exact Hr.
  - rewrite Hiqr. f_equal. unfold handle_zeros_in_scale.
    case_bool_decide as Hsmall.
    + apply (right_id_L 1 Qcdiv).
    + field. intros ->. by destruct Hsmall.
Qed.

Lemma robust_scaled_data_statistics_witness :
  ∃ out range,
    robust_scaled_data outliers = Ok (Mat float64 1 (column_of out)) ∧
    length out = 8%nat ∧
    median_sorted (sort1 out) = Some 0 ∧
    iqr (map Qc_of_Z [1; 2; 3; 4; 5; 100; 200; 300]%Z) = Some range ∧
    iqr out
    = Some (if bool_decide (range < Qc_of_Z 10 * float_eps) then range else 1).
Proof.
  apply (robust_scaled_data_statistics int64
           (map Qc_of_Z [1; 2; 3; 4; 5; 100; 200; 300]%Z)).
  discriminate.
Defined.

(** ** Tables whose columns are sorted *)

(** In a strictly increasing column, the value at position [p] has [p]
    smaller values before it and no equal one beside it. *)
Lemma count_strictly_sorted col p x :
  StronglySorted Qclt col → col !! p = Some x →
  count_lt col x = p ∧ count_le col x = S p.
Proof.
  intros Hs. revert p. induction Hs as [|y col Hs IH Hy]; intros p Hp; [done|].
  rewrite count_lt_cons, count_le_cons. destruct p as [|p]; simpl in Hp.
  - injection Hp as ->.
    rewrite decide_False by apply (irreflexivity Qclt).
    rewrite decide_True by apply Qcle_refl.
    assert (count_le col x = 0%nat) as Hle.
    { unfold count_le. clear IH Hs.
      induction Hy as [|z col Hz _ IHy]; [done|].
      rewrite filter_cons_False; [exact IHy|]. by apply Qclt_not_le. }
    pose proof (count_lt_le col x). lia.
  - destruct (IH p Hp) as [-> ->].
    assert (y < x) as Hyx.
    { apply (proj1 (Forall_forall _ _) Hy), list_elem_of_lookup. eauto. }
    rewrite decide_True by done.
    rewrite decide_True by (by apply Qclt_le_weak). done.
Qed.

Lemma rankdata1_strictly_sorted col :
  StronglySorted Qclt col → rankdata1 col = one_to (length col).
Proof.
  intros Hs. apply list_eq. intros p. unfold rankdata1, one_to.
  rewrite !list_lookup_fmap.
  destruct (col !! p) as [x|] eqn:Hp; simpl.
  - rewrite lookup_seq_lt by (eapply lookup_lt_Some, Hp). simpl. f_equal.
    rewrite rank_in_nat.
    destruct (count_strictly_sorted col p x Hs Hp) as [-> ->].
    replace (p + S p + 1)%nat with (2 * S p)%nat by lia.
    rewrite Qc_of_nat_mul.
    replace (Qc_of_nat 2) with 2 by (by apply Qc_is_canon). field. done.
  - rewrite lookup_seq_ge by (by apply lookup_ge_None_1). done.
Qed.

Lemma np_mean_replicate c v : (0 < c)%nat → np_mean (replicate c v) = Some v.
Proof.
  intros Hc. rewrite np_mean_nonempty by (by rewrite length_replicate).
  f_equal. rewrite length_replicate.
  assert (Qcsum (replicate c v) = Qc_of_nat c * v) as ->.
  { clear Hc. induction c as [|c IH]; simpl.
    - rewrite Qc_of_nat_0. ring.
    - rewrite IH, Qc_of_nat_S. ring. }
  pose proof (Qc_of_nat_pos c Hc). field. done.
Qed.

Lemma Qctrunc_of_nat n : Qc_of_Z (Qctrunc (Qc_of_nat n)) = Qc_of_nat n.
Proof.
  unfold Qctrunc, Qc_of_nat. simpl. by rewrite Z.quot_1_r.
Qed.

Lemma astype_of_nat d n : astype d (Qc_of_nat n) = Qc_of_nat n.
Proof. destruct d; [apply Qctrunc_of_nat | done]. Qed.

(** The reference distribution of a table whose columns are all strictly
    increasing from top to bottom is [1, 2, ..., r]. *)
Lemma reference_columns_sorted d c rows :
  rect c rows → (0 < c)%nat →
  (∀ j, (j < c)%nat → StronglySorted Qclt (column j rows)) →
  reference_distribution (Mat d c rows) = Ok (map Some (one_to (length rows))).
Proof.
  intros Hr Hc Hcols. rewrite reference_distribution_Mat. f_equal.
  pose proof (along_axis0_length rankdata1 rankdata1_length c rows Hr) as Hlen.
  pose proof (along_axis0_rect rankdata1 rankdata1_length c rows Hr) as Hrect.
  apply list_eq. intros p. unfold one_to. rewrite !list_lookup_fmap.
  destruct (along_axis0 rankdata1 c rows !! p) as [rrow|] eqn:Hrrow; simpl.
  - pose proof (lookup_lt_Some _ _ _ Hrrow) as Hp. rewrite Hlen in Hp.
    rewrite lookup_seq_lt by done. simpl. f_equal.
    assert (rrow = replicate c (Qc_of_nat (S p))) as ->;
      [|by apply np_mean_replicate].
    pose proof (rect_lookup _ _ _ _ Hrect Hrrow) as Hl.
    apply list_eq. intros j.
    destruct (decide (j < c)%nat) as [Hj|Hj].
    + rewrite lookup_replicate_2 by done.
      assert (rrow !! j = entry (along_axis0 rankdata1 c rows) p j) as ->
        by (unfold entry; by rewrite Hrrow).
      rewrite (along_axis0_entry rankdata1 rankdata1_length c) by done.
      rewrite rankdata1_strictly_sorted by (by apply Hcols).
      unfold one_to. rewrite list_lookup_fmap.
      rewrite (column_length c) by done.
      by rewrite lookup_seq_lt by done.
    + rewrite (lookup_ge_None_2 rrow) by lia.
      symmetry. apply lookup_replicate_None. lia.
  - apply lookup_ge_None_1 in Hrrow. rewrite Hlen in Hrrow.
    by rewrite lookup_seq_ge by done.
Qed.

(** X19.  On a table whose columns are all strictly increasing from top to bottom
    (as in the example of the notebook) and that has no more columns than
    rows, every row of the output is [1, 2, ..., c]. *)
Theorem quantile_columns_sorted d c rows :
  rect c rows → (0 < c ≤ length rows)%nat →
  (∀ j, (j < c)%nat → StronglySorted Qclt (column j rows)) →
  quantile_pipeline (Mat d c rows)
  = Ok (Mat d c (replicate (length rows) (one_to c))).
Proof.
  intros Hr [Hc Hle] Hcols.
  destruct (quantile_pipeline_completes d c rows Hr Hle) as [out Hout].
  rewrite Hout.
  destruct (quantile_pipeline_inv d c rows out Hr Hout)
    as (ref & row & Href & -> & Hlen & Hrow).
  do 3 f_equal. apply list_eq. intros i. unfold one_to.
  rewrite list_lookup_fmap.
  destruct (decide (i < c)%nat) as [Hi|Hi].
  - destruct (Hrow i Hi) as (q & Hq & ->).
    rewrite (reference_columns_sorted d c rows Hr Hc Hcols) in Href.
    injection Href as <-. unfold one_to in Hq.
    rewrite !list_lookup_fmap in Hq.
    rewrite lookup_seq_lt in Hq by lia. simpl in Hq. injection Hq as <-.
    rewrite lookup_seq_lt by done. simpl. by rewrite astype_of_nat.
  - rewrite lookup_ge_None_2 by lia.
    by rewrite lookup_seq_ge by lia.
Qed.

Lemma quantile_columns_sorted_witness :
  quantile_pipeline (Mat int64 3 sample_rows)
  = Ok (Mat int64 3 (replicate (length sample_rows) (one_to 3))).
Proof.
  apply (quantile_columns_sorted int64 3 sample_rows).
  - repeat constructor.
  - simpl. lia.
  - intros [|[|[|j]]] Hj; try lia; repeat constructor.
Defined.
